(** * CalChatBot: the HTTP layer, the client service layer and ISO extraction

    A shallow embedding of the Python sources

      - [src/app.py]          the FastAPI application: API-key check, the
                              in-memory conversation store, the [/chat]
                              endpoint, the calendar endpoints;
      - [api_service.py]      the client service layer used by the front end;
      - [test_iso_extract.py] [extract_iso_datetime];

    and of the booking orchestrator as the specification describes it
    (section 4.4); its source, [src/bot/chatbot.py], is absent.

    Conventions.  A Python [str] is a [string]: one [ascii] per character, so
    the texts covered are those whose code points lie below U+0100.  On that
    range [\d] is exactly [0-9] and [str.lower] is the map [lower_char] below.
    A [dict] keyed by strings is a [gmap string _].  An exception raised by a
    handler is a value of the result type.  Everything the code obtains from
    its surroundings (uuid4, the clock, the agent, the remote calendar, the
    HTTP transport) is an explicit argument. *)

From Stdlib Require Import ZArith NArith Ascii String List Lia Sorted Permutation.
From stdpp Require Import base option strings list gmap sorting.

Local Open Scope string_scope.

(** ** Python strings *)

Module PyStr.

(** [s.startswith(p)] *)
Fixpoint startswith (p s : string) : bool :=
  match p, s with
  | EmptyString, _ => true
  | String a p', String b s' => Ascii.eqb a b && startswith p' s'
  | String _ _, EmptyString => false
  end.

(** [p in s]: [p] occurs in [s] as a contiguous substring. *)
Fixpoint contains (p s : string) : bool :=
  startswith p s ||
  match s with
  | EmptyString => false
  | String _ s' => contains p s'
  end.

(** [s] splits around an occurrence of [p]. *)
Definition occurs (p s : string) : Prop := ∃ pre post, s = pre +:+ p +:+ post.

(** [c.lower()] for a code point below U+0100: A-Z and the Latin-1 capitals
    U+00C0-U+00DE (the multiplication sign U+00D7 apart) move up by 32. *)
Definition lower_char (c : ascii) : ascii :=
  let n := N_of_ascii c in
  if ((65 <=? n) && (n <=? 90) ||
      (192 <=? n) && (n <=? 222) && negb (n =? 215))%N
  then ascii_of_N (n + 32) else c.

(** [s.lower()] *)
Fixpoint lower (s : string) : string :=
  match s with
  | EmptyString => EmptyString
  | String c s' => String (lower_char c) (lower s')
  end.

(** [\d] on a code point below U+0100, where the decimal digits are 0-9.
    [Unicode.decimal] is [\d] on any code point. *)
Definition is_digit (c : ascii) : bool :=
  let n := N_of_ascii c in ((48 <=? n) && (n <=? 57))%N.

End PyStr.

(** ** Results of a request handler *)

Record HTTPException := mkHTTPException {
  status_code : Z;
  detail : string
}.

(** [fastapi.status] *)
Definition HTTP_400_BAD_REQUEST : Z := 400.
Definition HTTP_401_UNAUTHORIZED : Z := 401.
Definition HTTP_404_NOT_FOUND : Z := 404.
Definition HTTP_409_CONFLICT : Z := 409.
Definition HTTP_503_SERVICE_UNAVAILABLE : Z := 503.

(** A handler either returns its value or raises an [HTTPException]. *)
Inductive reply (A : Type) : Type :=
| Return (a : A)
| Raise (e : HTTPException).
Arguments Return {A} a.
Arguments Raise {A} e.

(** ** [verify_api_key] (src/app.py) *)

(** [os.getenv(k, d)] *)
Definition getenv (environ : gmap string string) (k d : string) : string :=
  default d (environ !! k).

(** The header value is [None] when the request has no [X-API-Key] header
    ([Header(None, alias=API_KEY_NAME)]). *)
Definition verify_api_key (environ : gmap string string)
    (api_key : option string) : reply (option string) :=
  let valid_api_key := getenv environ "API_KEY" "test-api-key" in
  if decide (api_key ≠ Some valid_api_key)
  then Raise (mkHTTPException 401 "Invalid API key")
  else Return api_key.

(** ** [extract_iso_datetime] (test_iso_extract.py) *)

(** [IsoExtract] is the function on texts whose code points are all below
    U+0100, written as [string]; [IsoUnicode] below is the function on any
    text, and the two agree where both apply. *)
Module IsoExtract.

(** The pattern [(\d{4}-\d{2}-\d{2})T(\d{2}:\d{2}):00\.000Z] is a sequence
    of atoms each of which consumes exactly one character, so matching at
    a position involves no choice. *)
Inductive atom : Type :=
| Digit
| Lit (c : ascii).

Definition atom_ok (a : atom) (c : ascii) : bool :=
  match a with
  | Digit => PyStr.is_digit c
  | Lit l => Ascii.eqb l c
  end.

Definition lits (s : string) : list atom := map Lit (list_ascii_of_string s).

(** group 1: [\d{4}-\d{2}-\d{2}] *)
Definition date_atoms : list atom :=
  [Digit; Digit; Digit; Digit; Lit "-"; Digit; Digit; Lit "-"; Digit; Digit].
(** group 2: [\d{2}:\d{2}] *)
Definition time_atoms : list atom :=
  [Digit; Digit; Lit ":"; Digit; Digit].
(** the literal tail [:00\.000Z] *)
Definition tail_atoms : list atom := lits ":00.000Z".

(** Match the atoms against a prefix of [s]: the text matched and the
    rest of [s]. *)
Fixpoint match_atoms (p : list atom) (s : string) : option (string * string) :=
  match p with
  | [] => Some (EmptyString, s)
  | a :: p' =>
      match s with
      | EmptyString => None
      | String c s' =>
          if atom_ok a c then
            match match_atoms p' s' with
            | Some (m, rest) => Some (String c m, rest)
            | None => None
            end
          else None
      end
  end.

(** [re.fullmatch] for a sequence of atoms. *)
Fixpoint fullmatch (p : list atom) (s : string) : bool :=
  match p, s with
  | [], EmptyString => true
  | a :: p', String c s' => atom_ok a c && fullmatch p' s'
  | _, _ => false
  end.

(** The whole pattern at the start of [s]: the two groups. *)
Definition match_here (s : string) : option (string * string) :=
  match match_atoms date_atoms s with
  | Some (d, r1) =>
      match match_atoms [Lit "T"] r1 with
      | Some (_, r2) =>
          match match_atoms time_atoms r2 with
          | Some (t, r3) =>
              match match_atoms tail_atoms r3 with
              | Some _ => Some (d, t)
              | None => None
              end
          | None => None
          end
      | None => None
      end
  | None => None
  end.

(** [re.search]: the match at the leftmost position that has one. *)
Fixpoint re_search (s : string) : option (string * string) :=
  match match_here s with
  | Some g => Some g
  | None =>
      match s with
      | EmptyString => None
      | String _ s' => re_search s'
      end
  end.

Definition extract_iso_datetime (message : string) : gmap string string :=
  match re_search message with
  | Some (date_str, time_str) =>
      <["time" := time_str]> (<["date" := date_str]> ∅)
  | None => ∅
  end.

(** The canonical rendering [f"{date}T{time}:00.000Z"]. *)
Definition render (date time : string) : string :=
  date +:+ "T" +:+ time +:+ ":00.000Z".

(** [message] contains a substring of the form [YYYY-MM-DDTHH:MM:00.000Z]. *)
Definition has_iso_substring (message : string) : Prop :=
  ∃ pre D T post,
    message = pre +:+ render D T +:+ post ∧
    fullmatch date_atoms D = true ∧ fullmatch time_atoms T = true.

(** Rendering of an extraction result, [r["date"]] and [r["time"]]. *)
Definition render_result (r : gmap string string) : option string :=
  match r !! "date", r !! "time" with
  | Some d, Some t => Some (render d t)
  | _, _ => None
  end.

End IsoExtract.

(** ** [extract_iso_datetime] on arbitrary text *)

(** A Python [str] is a sequence of Unicode code points, and the pattern is
    compiled without [re.ASCII], so [\d] stands for every decimal digit of
    the Unicode tables of the running interpreter (category Nd).  The tables
    are not part of the sources.  Two facts about them are used, both true
    of every version of Unicode: below U+0100 the decimal digits are 0-9,
    and U+0660-U+0669 are the ARABIC-INDIC digits. *)
Module Unicode.

Record tables := mkTables {
  decimal : N → bool;
  decimal_latin1 :
    ∀ c, (c < 256)%N → decimal c = ((48 <=? c) && (c <=? 57))%N;
  decimal_arabic_indic :
    ∀ c, (0x660 ≤ c ≤ 0x669)%N → decimal c = true
}.

End Unicode.

Module IsoUnicode.

(** The code points of a text of [IsoExtract]. *)
Definition of_string (s : string) : list N :=
  N_of_ascii <$> list_ascii_of_string s.

Inductive atom : Type :=
| Digit
| Lit (c : N).

(** The atoms are those of [IsoExtract]; what [\d] accepts is left to the
    argument [digit] of the matcher. *)
Definition of_atom (a : IsoExtract.atom) : atom :=
  match a with
  | IsoExtract.Digit => Digit
  | IsoExtract.Lit c => Lit (N_of_ascii c)
  end.

Definition atom_ok (digit : N → bool) (a : atom) (c : N) : bool :=
  match a with
  | Digit => digit c
  | Lit l => N.eqb l c
  end.

Definition date_atoms : list atom := of_atom <$> IsoExtract.date_atoms.
Definition time_atoms : list atom := of_atom <$> IsoExtract.time_atoms.
Definition tail_atoms : list atom := of_atom <$> IsoExtract.tail_atoms.
Definition T_atoms : list atom := of_atom <$> [IsoExtract.Lit "T"].

Fixpoint match_atoms (digit : N → bool) (p : list atom) (s : list N)
    : option (list N * list N) :=
  match p with
  | [] => Some ([], s)
  | a :: p' =>
      match s with
      | [] => None
      | c :: s' =>
          if atom_ok digit a c then
            match match_atoms digit p' s' with
            | Some (m, rest) => Some (c :: m, rest)
            | None => None
            end
          else None
      end
  end.

Fixpoint fullmatch (digit : N → bool) (p : list atom) (s : list N) : bool :=
  match p, s with
  | [], [] => true
  | a :: p', c :: s' => atom_ok digit a c && fullmatch digit p' s'
  | _, _ => false
  end.

Definition match_here (digit : N → bool) (s : list N)
    : option (list N * list N) :=
  match match_atoms digit date_atoms s with
  | Some (d, r1) =>
      match match_atoms digit T_atoms r1 with
      | Some (_, r2) =>
          match match_atoms digit time_atoms r2 with
          | Some (t, r3) =>
              match match_atoms digit tail_atoms r3 with
              | Some _ => Some (d, t)
              | None => None
              end
          | None => None
          end
      | None => None
      end
  | None => None
  end.

Fixpoint re_search (digit : N → bool) (s : list N)
    : option (list N * list N) :=
  match match_here digit s with
  | Some g => Some g
  | None =>
      match s with
      | [] => None
      | _ :: s' => re_search digit s'
      end
  end.

Definition extract_with (digit : N → bool) (message : list N)
    : gmap string (list N) :=
  match re_search digit message with
  | Some (date_str, time_str) =>
      <["time" := time_str]> (<["date" := date_str]> ∅)
  | None => ∅
  end.

(** [extract_iso_datetime] under the tables [u]. *)
Definition extract_iso_datetime (u : Unicode.tables) (message : list N)
    : gmap string (list N) :=
  extract_with (Unicode.decimal u) message.

Definition render (date time : list N) : list N :=
  (date ++ of_string "T" ++ time ++ of_string ":00.000Z")%list.

(** [message] contains a substring [YYYY-MM-DDTHH:MM:00.000Z] where each of
    Y, M, D, H stands for a character accepted by [digit]. *)
Definition has_iso_substring (digit : N → bool) (message : list N) : Prop :=
  ∃ pre D T post,
    message = (pre ++ render D T ++ post)%list ∧
    fullmatch digit date_atoms D = true ∧ fullmatch digit time_atoms T = true.

(** The digits 0-9. *)
Definition ascii_digit (c : N) : bool := ((48 <=? c) && (c <=? 57))%N.

End IsoUnicode.

(** ** State passing *)

(** [ST S A]: a computation that reads and updates a state [S]. *)
Definition ST (S A : Type) : Type := S → A * S.

#[global] Instance ST_ret {S} : MRet (ST S) := λ A a s, (a, s).
#[global] Instance ST_bind {S} : MBind (ST S) :=
  λ A B f m s, let '(a, s') := m s in f a s'.

(** ** uuid4 and its text *)

Module Uuid.

Definition hex_digit (d : N) : ascii :=
  if (d <? 10)%N then ascii_of_N (48 + d) else ascii_of_N (87 + d).

(** The low [4 * k] bits of [n] as [k] hexadecimal digits. *)
Fixpoint hex (k : nat) (n : N) : string :=
  match k with
  | O => EmptyString
  | S k' => hex k' (N.shiftr n 4) +:+ String (hex_digit (N.land n 15)) EmptyString
  end.

(** [str(u)] for a [uuid.UUID] with 128-bit integer value [u]:
    the 32 digits grouped 8-4-4-4-12. *)
Definition str (u : N) : string :=
  hex 8 (N.shiftr u 96) +:+ "-" +:+ hex 4 (N.shiftr u 80) +:+ "-" +:+
  hex 4 (N.shiftr u 64) +:+ "-" +:+ hex 4 (N.shiftr u 48) +:+ "-" +:+
  hex 12 u.

End Uuid.

(** ** The conversation store and the [/chat] endpoint (src/app.py) *)

Module Message.
Record t := mk {
  id : string;
  content : string;
  role : string;
  created_at : string
}.
End Message.

Module Conversation.
Record t := mk {
  id : string;
  user_email : string;
  messages : list Message.t;
  created_at : string;
  updated_at : string
}.

Definition set_updated_at (now : string) (c : t) : t :=
  mk (id c) (user_email c) (messages c) (created_at c) now.

(** [c.messages.append(m)] *)
Definition append (m : Message.t) (c : t) : t :=
  mk (id c) (user_email c) (messages c ++ [m]) (created_at c) (updated_at c).
End Conversation.

Module ChatMessage.
Record t := mk {
  message : string;
  user_email : string;
  conversation_id : option string
}.
End ChatMessage.

Module ChatResponse.
Record t := mk {
  response : string;
  conversation_id : string;
  action_taken : option string;
  details : option (gmap string string)
}.
End ChatResponse.

(** What [agent.process_message] hands back: the three keys read by [chat]. *)
Module AgentResult.
Record t := mk {
  response : string;
  action_taken : option string;
  details : option (gmap string string)
}.
End AgentResult.

(** A summary as returned by [get_conversation]. *)
Module Summary.
Record t := mk {
  id : string;
  user_email : string;
  created_at : string;
  updated_at : string;
  message_count : nat
}.
End Summary.

(** The dict [create_conversation] returns: it has no [updated_at]. *)
Module Created.
Record t := mk {
  id : string;
  user_email : string;
  created_at : string;
  message_count : nat
}.
End Created.

Module App.

(** The module-level [conversations = {}]. *)
Abbreviation Store := (gmap string Conversation.t).

(** [Message(content=..., role=...)]: [id] and [created_at] come from the
    default factories. *)
Definition new_Message (uuid4 : N) (now : string) (content role : string)
    : Message.t :=
  Message.mk (Uuid.str uuid4) content role now.

(** [Conversation(user_email=...)]: the two timestamps are two calls of
    the clock. *)
Definition new_Conversation (uuid4 : N) (now1 now2 : string)
    (user_email : string) : Conversation.t :=
  Conversation.mk (Uuid.str uuid4) user_email [] now1 now2.

(** How lines 285-305 of [chat] can raise, with [str(e)] as [e].
    [Raises_before_reply]: the exception comes before line 295 (the agent
    call itself, a result without the key [response], the validation of the
    assistant's [Message]), so nothing has been appended after the user's
    message.  [Raises_after_reply]: lines 285-298 went through with
    [result["response"] = response], the assistant's message is appended and
    filed, and lines 300-305 raise (a result without the key [action_taken]
    or [details], the validation of the [ChatResponse]). *)
Inductive failure : Type :=
| Raises_before_reply (e : string)
| Raises_after_reply (response : string) (e : string).


(** What one run of [chat] draws from its surroundings, in program order.
    [process_message] answers [inr result] when lines 285-305 go through,
    [result] holding the three keys read, and [inl f] when they raise. *)
Record ChatEnv := mkChatEnv {
  conversation_uuid : N;
  conversation_created : string;
  conversation_updated : string;
  existing_updated : string;
  user_message_uuid : N;
  user_message_now : string;
  process_message : string → string → failure + AgentResult.t;
  assistant_message_uuid : N;
  assistant_message_now : string
}.

(** The [else] branch of line 265: the id is truthy and a key of the
    store. *)
Definition existing (conversations : Store) (conversation_id : option string)
    : option (string * Conversation.t) :=
  match conversation_id with
  | None => None
  | Some cid =>
      if String.eqb cid "" then None
      else match conversations !! cid with
           | Some c => Some (cid, c)
           | None => None
           end
  end.

(** [chat], run from its first line to its last with no other request in
    between.  The local [conversation] is a reference to the object held by
    the store, so every mutation of it (lines 275, 282, 295) is a write to
    the store at [conversation_id]; the store is left as it stands where
    the exception is raised. *)
Definition chat (w : ChatEnv) (message : ChatMessage.t)
    : ST Store (reply ChatResponse.t) := λ conversations,
  let '(conversation_id, conversation) :=
    match existing conversations (ChatMessage.conversation_id message) with
    | None =>
        let conversation :=
          new_Conversation (conversation_uuid w) (conversation_created w)
            (conversation_updated w) (ChatMessage.user_email message) in
        (Conversation.id conversation, conversation)
    | Some (cid, conversation) =>
        (cid, Conversation.set_updated_at (existing_updated w) conversation)
    end in
  let conversations := <[conversation_id := conversation]> conversations in
  let user_message :=
    new_Message (user_message_uuid w) (user_message_now w)
      (ChatMessage.message message) "user" in
  let conversation := Conversation.append user_message conversation in
  let conversations := <[conversation_id := conversation]> conversations in
  match process_message w (ChatMessage.message message)
          (ChatMessage.user_email message) with
  | inl (Raises_before_reply e) =>
      (Raise (mkHTTPException 500 e), conversations)
  | inl (Raises_after_reply response e) =>
      let assistant_message :=
        new_Message (assistant_message_uuid w) (assistant_message_now w)
          response "assistant" in
      let conversation := Conversation.append assistant_message conversation in
      let conversations := <[conversation_id := conversation]> conversations in
      (Raise (mkHTTPException 500 e), conversations)
  | inr result =>
      let assistant_message :=
        new_Message (assistant_message_uuid w) (assistant_message_now w)
          (AgentResult.response result) "assistant" in
      let conversation := Conversation.append assistant_message conversation in
      let conversations := <[conversation_id := conversation]> conversations in
      (Return (ChatResponse.mk (AgentResult.response result) conversation_id
                 (AgentResult.action_taken result) (AgentResult.details result)),
       conversations)
  end.

(** [create_conversation] *)
Definition create_conversation (uuid4 : N) (now1 now2 : string)
    (user_email : string) : ST Store (reply Created.t) := λ conversations,
  let new_conversation := new_Conversation uuid4 now1 now2 user_email in
  (Return (Created.mk (Conversation.id new_conversation)
             (Conversation.user_email new_conversation)
             (Conversation.created_at new_conversation) 0),
   <[Conversation.id new_conversation := new_conversation]> conversations).

Definition not_found {A} : reply A :=
  Raise (mkHTTPException 404 "Conversation not found").

(** [get_conversation] *)
Definition get_conversation (conversation_id : string)
    : ST Store (reply Summary.t) := λ conversations,
  match conversations !! conversation_id with
  | None => (not_found, conversations)
  | Some conversation =>
      (Return (Summary.mk (Conversation.id conversation)
                 (Conversation.user_email conversation)
                 (Conversation.created_at conversation)
                 (Conversation.updated_at conversation)
                 (List.length (Conversation.messages conversation))),
       conversations)
  end.

(** [delete_conversation] *)
Definition delete_conversation (conversation_id : string)
    : ST Store (reply string) := λ conversations,
  match conversations !! conversation_id with
  | None => (not_found, conversations)
  | Some _ =>
      (Return ("Conversation " +:+ conversation_id +:+ " deleted"),
       delete conversation_id conversations)
  end.

(** [get_conversation_messages] *)
Definition get_conversation_messages (conversation_id : string)
    : ST Store (reply (list Message.t)) := λ conversations,
  match conversations !! conversation_id with
  | None => (not_found, conversations)
  | Some conversation => (Return (Conversation.messages conversation), conversations)
  end.

(** Every key of the store is the text of a uuid and names the
    conversation filed under it. *)
Definition store_ok (conversations : Store) : Prop :=
  ∀ k c, conversations !! k = Some c →
    Conversation.id c = k ∧ ∃ u, k = Uuid.str u.

(** One request that can change the store, run from start to end.  [chat]
    is a coroutine that suspends at line 285; a request that runs while
    another [chat] is suspended there is not a step of this relation, it is
    one of [Interleaved.step] below. *)
Inductive step : Store → Store → Prop :=
| Step_chat w message s : step s (chat w message s).2
| Step_create uuid4 now1 now2 user_email s :
    step s (create_conversation uuid4 now1 now2 user_email s).2
| Step_delete conversation_id s :
    step s (delete_conversation conversation_id s).2.

(** The stores the application can hold when its requests run one after
    the other; it starts with [{}]. *)
Inductive reachable : Store → Prop :=
| Reach_start : reachable ∅
| Reach_step s s' : reachable s → step s s' → reachable s'.

(** The dict built for one conversation by [list_conversations] and
    [get_conversation]. *)
Definition summary (conversation : Conversation.t) : Summary.t :=
  Summary.mk (Conversation.id conversation)
    (Conversation.user_email conversation)
    (Conversation.created_at conversation)
    (Conversation.updated_at conversation)
    (List.length (Conversation.messages conversation)).

(** [list_conversations].  The loop runs over [conversations.items()]; the
    store being a finite map, the order in which Python visits the items
    (insertion order) is not modelled, and the result is the list of the
    summaries in the order of [map_to_list]. *)
Definition list_conversations (user_email : option string)
    : ST Store (reply (list Summary.t)) := λ conversations,
  (Return
     (omap (λ item : string * Conversation.t,
              let conversation := item.2 in
              if match user_email with
                 | None => true
                 | Some e => String.eqb (Conversation.user_email conversation) e
                 end
              then Some (summary conversation) else None)
           (map_to_list conversations)),
   conversations).

(** What a run of [chat] with the outcome [outcome] of lines 285-305 has
    made of the transcript [before] of its conversation: the user's message
    is appended, and after it the assistant's unless the exception came
    before line 295. *)
Definition extended_by (outcome : failure + AgentResult.t) (text : string)
    (before after : list Message.t) : Prop :=
  ∃ um, Message.role um = "user" ∧ Message.content um = text ∧
    match outcome with
    | inl (Raises_before_reply _) => after = (before ++ [um])%list
    | inl (Raises_after_reply response _) =>
        ∃ am, after = (before ++ [um; am])%list ∧
              Message.role am = "assistant" ∧ Message.content am = response
    | inr result =>
        ∃ am, after = (before ++ [um; am])%list ∧
              Message.role am = "assistant" ∧
              Message.content am = AgentResult.response result
    end.

(** A transcript in which every message is the user's or the assistant's
    and every message of the assistant comes right after one of the user. *)
Definition replies_follow_user (transcript : list Message.t) : Prop :=
  (∀ m, m ∈ transcript →
        Message.role m = "user" ∨ Message.role m = "assistant") ∧
  ∀ i m, transcript !! i = Some m → Message.role m = "assistant" →
         ∃ j m', i = S j ∧ transcript !! j = Some m' ∧ Message.role m' = "user".

End App.

(** ** [chat] among concurrent requests (src/app.py) *)

(** [chat] is a coroutine: at line 285 it awaits the agent, and the event
    loop may run other requests before it goes on at line 290.  Nothing else
    in the handlers awaits, so a run of the application is an interleaving
    of four kinds of steps: lines 262-285 of a [chat], lines 285-308 of a
    suspended [chat], a [create_conversation] and a [delete_conversation].
    The dict [conversations] holds references, and a suspended [chat] keeps
    one in its local [conversation]: the objects are kept in a heap. *)
Module Interleaved.
Import App.

(** The locals of a [chat] suspended at line 285, with what the rest of the
    run will draw from its surroundings. *)
Record suspended_chat := mkSuspended {
  env : ChatEnv;
  request : ChatMessage.t;
  conversation_id : string;
  conversation : nat
}.

Record state := mkState {
  heap : list Conversation.t;
  conversations : gmap string nat;
  suspended : list suspended_chat
}.

Definition start : state := mkState [] ∅ [].

(** The [else] branch of line 265, on references. *)
Definition existing_ref (conversations : gmap string nat)
    (conversation_id : option string) : option (string * nat) :=
  match conversation_id with
  | None => None
  | Some cid =>
      if String.eqb cid "" then None
      else match conversations !! cid with
           | Some a => Some (cid, a)
           | None => None
           end
  end.

(** Lines 262-285: up to the call of the agent. *)
Definition chat_begin (w : ChatEnv) (message : ChatMessage.t) (st : state)
    : state :=
  let user_message :=
    new_Message (user_message_uuid w) (user_message_now w)
      (ChatMessage.message message) "user" in
  match existing_ref (conversations st) (ChatMessage.conversation_id message) with
  | None =>
      let conversation :=
        new_Conversation (conversation_uuid w) (conversation_created w)
          (conversation_updated w) (ChatMessage.user_email message) in
      let a := List.length (heap st) in
      mkState
        (heap st ++ [Conversation.append user_message conversation])%list
        (<[Conversation.id conversation := a]> (conversations st))
        (suspended st ++ [mkSuspended w message (Conversation.id conversation) a])%list
  | Some (cid, a) =>
      mkState
        (alter (λ c, Conversation.append user_message
                       (Conversation.set_updated_at (existing_updated w) c))
               a (heap st))
        (conversations st)
        (suspended st ++ [mkSuspended w message cid a])%list
  end.

(** Lines 285-308 of the [i]-th suspended [chat]: the agent has answered or
    raised. *)
Definition chat_resume (i : nat) (st : state)
    : option (reply ChatResponse.t * state) :=
  match suspended st !! i with
  | None => None
  | Some p =>
      let w := env p in
      let rest := delete i (suspended st) in
      let filed (response : string) :=
        let assistant_message :=
          new_Message (assistant_message_uuid w) (assistant_message_now w)
            response "assistant" in
        mkState
          (alter (Conversation.append assistant_message) (conversation p)
                 (heap st))
          (<[conversation_id p := conversation p]> (conversations st))
          rest in
      Some
        match process_message w (ChatMessage.message (request p))
                (ChatMessage.user_email (request p)) with
        | inl (Raises_before_reply e) =>
            (Raise (mkHTTPException 500 e),
             mkState (heap st) (conversations st) rest)
        | inl (Raises_after_reply response e) =>
            (Raise (mkHTTPException 500 e), filed response)
        | inr result =>
            (Return (ChatResponse.mk (AgentResult.response result)
                       (conversation_id p)
                       (AgentResult.action_taken result)
                       (AgentResult.details result)),
             filed (AgentResult.response result))
        end
  end.

(** [create_conversation] *)
Definition create_conversation (uuid4 : N) (now1 now2 : string)
    (user_email : string) (st : state) : state :=
  let new_conversation := new_Conversation uuid4 now1 now2 user_email in
  mkState (heap st ++ [new_conversation])%list
    (<[Conversation.id new_conversation := List.length (heap st)]>
       (conversations st))
    (suspended st).

(** [delete_conversation]: [del conversations[conversation_id]]; with an
    unknown key the store is left as it is (HTTP 404). *)
Definition delete_conversation (conversation_id : string) (st : state)
    : state :=
  mkState (heap st) (delete conversation_id (conversations st)) (suspended st).

Inductive step : state → state → Prop :=
| Step_begin w message st : step st (chat_begin w message st)
| Step_resume i r st st' : chat_resume i st = Some (r, st') → step st st'
| Step_create uuid4 now1 now2 user_email st :
    step st (create_conversation uuid4 now1 now2 user_email st)
| Step_delete conversation_id st :
    step st (delete_conversation conversation_id st).

(** The states the application can be in. *)
Inductive reachable : state → Prop :=
| Reach_start : reachable start
| Reach_step st st' : reachable st → step st st' → reachable st'.

(** The store as the handlers that read it see it. *)
Definition view (st : state) : Store :=
  omap (λ a, heap st !! a) (conversations st).

(** The number of messages of role [r]. *)
Definition count_role (r : string) (transcript : list Message.t) : nat :=
  List.length (List.filter (λ m, String.eqb (Message.role m) r) transcript).

(** A transcript in which every message is the user's or the assistant's
    and the assistant has at no point said more than the user. *)
Definition never_ahead (transcript : list Message.t) : Prop :=
  (∀ m, m ∈ transcript →
        Message.role m = "user" ∨ Message.role m = "assistant") ∧
  ∀ n, (count_role "assistant" (take n transcript)
        ≤ count_role "user" (take n transcript))%nat.

(** The messages of the user not answered yet, when the transcript is read
    from the left starting with [unanswered] of them; [None] when a message
    of the assistant answers nothing or a role is unknown. *)
Fixpoint unanswered (open : nat) (transcript : list Message.t) : option nat :=
  match transcript with
  | [] => Some open
  | m :: transcript' =>
      if String.eqb (Message.role m) "user" then
        unanswered (S open) transcript'
      else if String.eqb (Message.role m) "assistant" then
        match open with
        | O => None
        | S open' => unanswered open' transcript'
        end
      else None
  end.

(** The suspended chats that hold the object at [a]. *)
Definition waiting (a : nat) (l : list suspended_chat) : nat :=
  List.length (List.filter (λ p, Nat.eqb (conversation p) a) l).

(** What every reachable state satisfies: the dict and the suspended chats
    refer to objects of the heap, under the id of the object; the id of an
    object is the text of a uuid; and in each transcript the user's messages
    not answered yet are at least as many as the chats waiting to answer. *)
Definition state_ok (st : state) : Prop :=
  (∀ k a, conversations st !! k = Some a →
          ∃ c, heap st !! a = Some c ∧ Conversation.id c = k) ∧
  (∀ p, p ∈ suspended st →
        ∃ c, heap st !! conversation p = Some c ∧
             Conversation.id c = conversation_id p) ∧
  (∀ a c, heap st !! a = Some c →
          (∃ u, Conversation.id c = Uuid.str u) ∧
          ∃ n, unanswered 0 (Conversation.messages c) = Some n ∧
               (waiting a (suspended st) ≤ n)%nat).

End Interleaved.

(** ** The calendar endpoints (src/app.py) *)

Module BookEventRequest.
Record t := mk {
  event_type_id : string;
  date : string;
  time : string;
  name : string;
  email : string;
  reason : option string
}.
End BookEventRequest.

Module RescheduleEventRequest.
Record t := mk {
  new_date : string;
  new_time : string
}.
End RescheduleEventRequest.

Module Calendar.

(** A call of a [CalAPIClient] method that writes to the remote calendar,
    with its arguments. *)
Inductive call : Type :=
| Book_event (event_type_id start_time name email : string) (reason : option string)
| Reschedule_booking (event_id new_start_time : string)
| Cancel_booking (event_id : string).

(** An exception raised by a method of the client, by the [except] clause
    of the handlers that catches it: an [HTTPException], which
    [except HTTPException: raise] passes on as it is, or any other
    [Exception], of which [except Exception] keeps [str(e)]. *)
Inductive client_exn : Type :=
| Http_exception (e : HTTPException)
| Other_exception (text : string).

(** The remote calendar behind [CalAPIClient]: what the [n]-th call
    (counting from 0) answers, either a result dict or, on the left, the
    exception it raises.  Of a result dict the handlers read the keys
    [status] and [message]. *)
Definition CalAPIClient : Type := nat → call → client_exn + gmap string string.

(** What the two [except] clauses of a handler make of an exception raised
    inside its [try]. *)
Definition reraise {A} (e : client_exn) : reply A :=
  match e with
  | Http_exception e => Raise e
  | Other_exception text => Raise (mkHTTPException 500 text)
  end.

(** The state threaded through a handler is the list of calls issued so
    far, oldest first. *)
Definition invoke (cal_api : CalAPIClient) (c : call)
    : ST (list call) (client_exn + gmap string string) :=
  λ issued, (cal_api (List.length issued) c, (issued ++ [c])%list).

(** Lines 496-516 of [book_event]: the exception raised for an error
    result with text [error_message]. *)
Definition booking_error (error_message : string) : HTTPException :=
  let status_code := HTTP_400_BAD_REQUEST in
  if PyStr.contains "500" error_message
     && PyStr.contains "database" (PyStr.lower error_message) then
    mkHTTPException HTTP_503_SERVICE_UNAVAILABLE
      "Calendar service is temporarily unavailable. Please try again later."
  else if PyStr.contains "404" error_message then
    mkHTTPException HTTP_404_NOT_FOUND
      "The requested event type could not be found."
  else if PyStr.contains "401" error_message
          || PyStr.contains "403" error_message then
    mkHTTPException HTTP_401_UNAUTHORIZED
      "Authentication error with calendar service."
  else if PyStr.contains "Invalid time slot" error_message then
    mkHTTPException HTTP_400_BAD_REQUEST
      "The requested time slot is not available."
  else
    mkHTTPException status_code error_message.

(** [book_event] *)
Definition book_event (cal_api : CalAPIClient) (event : BookEventRequest.t)
    : ST (list call) (reply (gmap string string)) :=
  let start_time :=
    BookEventRequest.date event +:+ "T" +:+ BookEventRequest.time event
      +:+ ":00.000Z" in
  booking_result ← invoke cal_api
    (Book_event (BookEventRequest.event_type_id event) start_time
       (BookEventRequest.name event) (BookEventRequest.email event)
       (BookEventRequest.reason event));
  match booking_result with
  | inl e => mret (reraise e)
  | inr booking_result =>
      if decide (booking_result !! "status" = Some "error") then
        let error_message :=
          default "Failed to book event" (booking_result !! "message") in
        mret (Raise (booking_error error_message))
      else mret (Return booking_result)
  end.

(** The call [book_event] issues. *)
Definition book_event_call (event : BookEventRequest.t) : call :=
  Book_event (BookEventRequest.event_type_id event)
    (IsoExtract.render (BookEventRequest.date event) (BookEventRequest.time event))
    (BookEventRequest.name event) (BookEventRequest.email event)
    (BookEventRequest.reason event).

(** [reschedule_event] *)
Definition reschedule_event (cal_api : CalAPIClient) (event_id : string)
    (reschedule_data : RescheduleEventRequest.t)
    : ST (list call) (reply (gmap string string)) :=
  let new_start_time :=
    RescheduleEventRequest.new_date reschedule_data +:+ "T"
      +:+ RescheduleEventRequest.new_time reschedule_data +:+ ":00.000Z" in
  result ← invoke cal_api (Reschedule_booking event_id new_start_time);
  match result with
  | inl e => mret (reraise e)
  | inr result =>
      if decide (result !! "status" = Some "error") then
        mret (Raise (mkHTTPException 400
                       (default "Failed to reschedule event" (result !! "message"))))
      else mret (Return result)
  end.

(** [cancel_event] *)
Definition cancel_event (cal_api : CalAPIClient) (event_id : string)
    : ST (list call) (reply (gmap string string)) :=
  result ← invoke cal_api (Cancel_booking event_id);
  match result with
  | inl e => mret (reraise e)
  | inr result =>
      if decide (result !! "status" = Some "error") then
        mret (Raise (mkHTTPException 400
                       (default "Failed to cancel event" (result !! "message"))))
      else mret (Return result)
  end.

(** The outcome taxonomy of the specification and the status codes that
    carry its three failure kinds over HTTP. *)
Inductive outcome_kind : Type :=
| Conflict
| InvalidRequest
| ServiceUnavailable.

Definition outcome_of_status (code : Z) : option outcome_kind :=
  if decide (code = HTTP_409_CONFLICT) then Some Conflict
  else if decide (code = HTTP_400_BAD_REQUEST) then Some InvalidRequest
  else if decide (code = HTTP_503_SERVICE_UNAVAILABLE) then Some ServiceUnavailable
  else None.

End Calendar.

(** ** The client service layer (api_service.py) *)

Module ApiService.

(** Exceptions by the [except] clause that catches them:
    [requests.exceptions.RequestException] and its subclasses
    ([ConnectionError], [Timeout], [HTTPError], ...), any other
    [Exception], and what only derives from [BaseException]. *)
Inductive exn_class : Type :=
| RequestException
| OtherException
| BaseExceptionOnly.

(** An exception with [str(e)]. *)
Record exn := mkExn { cls : exn_class; text : string }.

(** A decoded JSON body, as far as the front end tells them apart. *)
Inductive json : Type :=
| JDict (d : gmap string string)
| JList (l : list (gmap string string)).

Inductive method : Type := GET | POST.

(** The arguments of [requests.get] / [requests.post]. *)
Record request := mkRequest {
  meth : method;
  url : string;
  payload : option (gmap string string);
  headers : gmap string string;
  timeout : option Z
}.

(** A [requests.Response]: [error_text] is [str] of the [HTTPError] that
    [raise_for_status] raises for this response, [body] is what [.json()]
    returns or raises. *)
Record Response := mkResponse {
  resp_status : Z;
  resp_headers : gmap string string;
  error_text : string;
  body : exn + json
}.

(** The network: what the [n]-th request answers. *)
Definition Transport : Type := nat → request → exn + Response.

(** Entries appended to [debug.log], one for each [with open] block. *)
Inductive log_entry : Type :=
| Sending (url : string) (headers payload : gmap string string)
| ResponseStatus (code : Z) (headers : gmap string string)
| Error (text : string)
| UnexpectedError (text : string)
| Fetching (url : string)
| ErrorFetching (text : string).

Record world := mkWorld {
  debug_log : list log_entry;
  sent : list request
}.

Record Config := mkConfig {
  API_BASE_URL : string;
  API_KEY : string
}.

Definition HEADERS (cfg : Config) : gmap string string :=
  <["X-API-Key" := API_KEY cfg]> ∅.

(** A write to [debug.log] that succeeds.  [write_log_io] below is the
    write that can fail; [send_message] and [get_conversation_messages] are
    the two functions on a disk where every write succeeds, and
    [send_message_io] and [get_conversation_messages_io] the two functions
    on any disk. *)
Definition write_log (e : log_entry) : ST world unit :=
  λ w, (tt, mkWorld (debug_log w ++ [e])%list (sent w)).

Definition perform (http : Transport) (r : request) : ST world (exn + Response) :=
  λ w, (http (List.length (sent w)) r, mkWorld (debug_log w) (sent w ++ [r])%list).

(** [response.raise_for_status()] raises for 4xx and 5xx. *)
Definition raise_for_status (r : Response) : option exn :=
  if decide (400 ≤ resp_status r < 600)%Z
  then Some (mkExn RequestException (error_text r))
  else None.

(** [send_message] *)
Definition send_message (cfg : Config) (http : Transport)
    (message user_email : string) (conversation_id : option string)
    : ST world (exn + json) :=
  let url := API_BASE_URL cfg +:+ "/chat" in
  let payload : gmap string string :=
    <["user_email" := user_email]> (<["message" := message]> ∅) in
  let payload :=
    match conversation_id with
    | Some c => if String.eqb c "" then payload
                else <["conversation_id" := c]> payload
    | None => payload
    end in
  _ ← write_log (Sending url (HEADERS cfg) payload);
  (* try: *)
  attempt ← (response ← perform http
               (mkRequest POST url (Some payload) (HEADERS cfg) (Some 30%Z));
             match response with
             | inl e => mret (inl e)
             | inr response =>
                 _ ← write_log (ResponseStatus (resp_status response)
                                  (resp_headers response));
                 match raise_for_status response with
                 | Some e => mret (inl e)
                 | None => mret (body response)
                 end
             end);
  match attempt with
  | inr v => mret (inr v)
  | inl e =>
      match cls e with
      | RequestException =>
          let error_message := text e in
          _ ← write_log (Error error_message);
          mret (inr (JDict (<["error" := error_message]> ∅)))
      | OtherException =>
          let error_message := text e in
          _ ← write_log (UnexpectedError error_message);
          mret (inr (JDict (<["error" := error_message]> ∅)))
      | BaseExceptionOnly => mret (inl e)
      end
  end.

(** [get_conversation_messages] *)
Definition get_conversation_messages (cfg : Config) (http : Transport)
    (conversation_id : string) : ST world (exn + json) :=
  let url := API_BASE_URL cfg +:+ "/api/conversations/" +:+ conversation_id
               +:+ "/messages" in
  _ ← write_log (Fetching url);
  (* try: *)
  attempt ← (response ← perform http
               (mkRequest GET url None (HEADERS cfg) (Some 30%Z));
             match response with
             | inl e => mret (inl e)
             | inr response =>
                 match raise_for_status response with
                 | Some e => mret (inl e)
                 | None => mret (body response)
                 end
             end);
  match attempt with
  | inr v => mret (inr v)
  | inl e =>
      match cls e with
      | RequestException | OtherException =>
          let error_message := text e in
          _ ← write_log (ErrorFetching error_message);
          mret (inr (JDict (<["error" := error_message]> ∅)))
      | BaseExceptionOnly => mret (inl e)
      end
  end.

(** *** The same functions with writes to [debug.log] that can fail *)

(** [IO A]: a call that changes the world and returns an [A] or raises. *)
Definition IO (A : Type) : Type := world → (exn + A) * world.

#[global] Instance IO_ret : MRet IO := λ A a w, (inr a, w).
#[global] Instance IO_bind : MBind IO :=
  λ A B f m w,
    match m w with
    | (inl e, w') => (inl e, w')
    | (inr a, w') => f a w'
    end.

Definition raise {A} (e : exn) : IO A := λ w, (inl e, w).

(** [try: body / except RequestException as e: ... / except Exception as
    e: ...]; an exception raised by a handler leaves the statement. *)
Definition try_except {A} (body : IO A)
    (on_request_exception on_exception : exn → IO A) : IO A :=
  λ w,
    match body w with
    | (inr v, w') => (inr v, w')
    | (inl e, w') =>
        match cls e with
        | RequestException => on_request_exception e w'
        | OtherException => on_exception e w'
        | BaseExceptionOnly => (inl e, w')
        end
    end.

(** The file system under [debug.log]: what appending the entry [e] to a
    log of [n] entries does, [None] when it succeeds and [str] of the
    [OSError] that [open] raises when it does not (no permission, no space
    left, ...). *)
Definition Disk : Type := nat → log_entry → option string.

(** An [OSError] is an [Exception] and no [RequestException]. *)
Definition os_error (text : string) : exn := mkExn OtherException text.

(** [with open("debug.log", "a") as f: f.write(...)] *)
Definition write_log_io (disk : Disk) (e : log_entry) : IO unit :=
  λ w,
    match disk (List.length (debug_log w)) e with
    | Some text => (inl (os_error text), w)
    | None => (inr tt, mkWorld (debug_log w ++ [e])%list (sent w))
    end.

Definition perform_io (http : Transport) (r : request) : IO Response :=
  perform http r.

Definition raise_for_status_io (r : Response) : IO unit :=
  match raise_for_status r with
  | Some e => raise e
  | None => mret tt
  end.

(** [response.json()] *)
Definition json_io (r : Response) : IO json := λ w, (body r, w).

(** [send_message]: the first write to the log is outside the [try], the
    second inside, and each handler writes to the log again. *)
Definition send_message_io (cfg : Config) (http : Transport) (disk : Disk)
    (message user_email : string) (conversation_id : option string)
    : IO json :=
  let url := API_BASE_URL cfg +:+ "/chat" in
  let payload : gmap string string :=
    <["user_email" := user_email]> (<["message" := message]> ∅) in
  let payload :=
    match conversation_id with
    | Some c => if String.eqb c "" then payload
                else <["conversation_id" := c]> payload
    | None => payload
    end in
  _ ← write_log_io disk (Sending url (HEADERS cfg) payload);
  try_except
    (response ← perform_io http
                  (mkRequest POST url (Some payload) (HEADERS cfg) (Some 30%Z));
     _ ← write_log_io disk (ResponseStatus (resp_status response)
                              (resp_headers response));
     _ ← raise_for_status_io response;
     json_io response)
    (λ e,
       let error_message := text e in
       _ ← write_log_io disk (Error error_message);
       mret (JDict (<["error" := error_message]> ∅)))
    (λ e,
       let error_message := text e in
       _ ← write_log_io disk (UnexpectedError error_message);
       mret (JDict (<["error" := error_message]> ∅))).

(** [get_conversation_messages]: one write before the [try], one in the
    handler of [except Exception]. *)
Definition get_conversation_messages_io (cfg : Config) (http : Transport)
    (disk : Disk) (conversation_id : string) : IO json :=
  let url := API_BASE_URL cfg +:+ "/api/conversations/" +:+ conversation_id
               +:+ "/messages" in
  let handler : exn → IO json :=
    λ e,
      let error_message := text e in
      _ ← write_log_io disk (ErrorFetching error_message);
      mret (JDict (<["error" := error_message]> ∅)) in
  _ ← write_log_io disk (Fetching url);
  try_except
    (response ← perform_io http
                  (mkRequest GET url None (HEADERS cfg) (Some 30%Z));
     _ ← raise_for_status_io response;
     json_io response)
    handler handler.

(** A disk on which every write succeeds. *)
Definition reliable : Disk := λ _ _, None.

(** The request issued by a call fails with [e]: the transport raises
    (connection error, timeout), the status is 4xx or 5xx, or the body
    does not decode. *)
Inductive request_fails (http : Transport) (n : nat) (r : request) : exn → Prop :=
| Fails_transport e :
    http n r = inl e → request_fails http n r e
| Fails_status resp e :
    http n r = inr resp → raise_for_status resp = Some e →
    request_fails http n r e
| Fails_body resp e :
    http n r = inr resp → raise_for_status resp = None →
    body resp = inl e → request_fails http n r e.

(** The module-level configuration: the environment is cleared and then
    filled from the [.env] file alone ([os.environ.clear()],
    [load_dotenv(override=True)]), so [dotenv] is all that [os.getenv]
    sees. *)
Definition load_config (dotenv : gmap string string) : Config :=
  mkConfig (getenv dotenv "CHATBOT_API_URL" "http://localhost:8000")
    (getenv dotenv "CHATBOT_API_KEY" "test-api-key").

End ApiService.

(** ** The booking orchestrator (specification, section 4.4) *)

Module Orchestrator.

(** Modelled from the spec: the Slot Candidate of section 3; the source of
    the orchestrator ([CalendarAgent.book_meeting], src/bot/chatbot.py) is
    absent.  Instants are seconds since the epoch, UTC. *)
Record SlotCandidate := mkSlot {
  event_type_id : string;
  start_instant : Z;
  end_instant : Z;
  display_label : string
}.

(** Modelled from the spec: the Booking Outcome of section 3, the
    [Conflict] carrying the alternatives that section 4.4 attaches. *)
Inductive BookingOutcome : Type :=
| Success (booking_id : string) (start end_ : Z)
| Conflict (attempted_instant : Z) (reason : string)
    (alternatives : list SlotCandidate)
| InvalidRequest (reason : string)
| ServiceUnavailable (reason : string).

(** Modelled from the spec: the two services the orchestrator calls. *)
Inductive call : Type :=
| Resolve (event_type_id : string) (date : Z)
| Remote_book (event_type_id : string) (start_instant : Z)
    (attendee_name attendee_email : string) (reason : option string).

(** Modelled from the spec: the Availability Resolver of section 4.3 and
    the remote booking call with the classification of its answer, each
    as what the [n]-th call issued answers. *)
Record Services := mkServices {
  resolve : nat → string → Z → list SlotCandidate;
  remote_book : nat → string → Z → string → string → option string → BookingOutcome
}.

(** Modelled from the spec: the date containing an instant, as a day
    number. *)
Definition date_of (instant : Z) : Z := (instant `div` 86400)%Z.

(** Modelled from the spec: the absolute time difference to the requested
    instant. *)
Definition distance (requested : Z) (s : SlotCandidate) : Z :=
  Z.abs (start_instant s - requested).

(** Modelled from the spec: "nearest by absolute time difference". *)
Definition nearer (requested : Z) : relation SlotCandidate :=
  λ a b, (distance requested a ≤ distance requested b)%Z.

(** Modelled from the spec: comparing two distances is a comparison of
    integers. *)
#[global] Instance nearer_dec requested a b : Decision (nearer requested a b) :=
  Z.le_dec _ _.

(** Modelled from the spec: "up to 3 alternative SlotCandidates from the
    same resolution (nearest by absolute time difference to the requested
    instant)". *)
Definition alternatives (requested : Z) (slots : list SlotCandidate)
    : list SlotCandidate :=
  take 3 (merge_sort (nearer requested) slots).

(** Modelled from the spec: [is_instant_available], "true iff that instant
    appears in the resolved sequence". *)
Definition is_instant_available (requested : Z) (slots : list SlotCandidate)
    : bool :=
  existsb (λ s, Z.eqb (start_instant s) requested) slots.

(** Modelled from the spec: [book] of section 4.4, first and second
    bullet. *)
Definition book (sv : Services) (event_type_id : string)
    (start_instant_utc : Z) (attendee_name attendee_email : string)
    (reason : option string) (skip_availability_check : bool)
    : ST (list call) BookingOutcome :=
  let remote : ST (list call) BookingOutcome := λ issued,
    (remote_book sv (List.length issued) event_type_id start_instant_utc
       attendee_name attendee_email reason,
     (issued ++ [Remote_book event_type_id start_instant_utc attendee_name
                   attendee_email reason])%list) in
  if skip_availability_check then remote
  else
    slots ← (λ issued,
               (resolve sv (List.length issued) event_type_id
                  (date_of start_instant_utc),
                (issued ++ [Resolve event_type_id (date_of start_instant_utc)])%list));
    if is_instant_available start_instant_utc slots then remote
    else mret (Conflict start_instant_utc "requested slot is not available"
                 (alternatives start_instant_utc slots)).

End Orchestrator.

(** ** The chat page (app.py) *)

Module Frontend.
Import ApiService.

(** The keys of [st.session_state] the page sets.  A message of the local
    transcript is a dict with the keys [role] and [content]; a message of
    the history the server returns has more keys. *)
Record SessionState := mkSession {
  user_email : string;
  conversation_id : option string;
  messages : list (gmap string string);
  error : option string
}.

Definition set_error (e : option string) (st : SessionState) : SessionState :=
  mkSession (user_email st) (conversation_id st) (messages st) e.

(** [c.isspace()] for a code point below U+0100. *)
Definition isspace (c : ascii) : bool :=
  let n := N_of_ascii c in
  ((9 <=? n) && (n <=? 13) || (28 <=? n) && (n <=? 32) ||
   (n =? 133) || (n =? 160))%N.

(** [bool(s.strip())]: some character of [s] is not white space. *)
Fixpoint has_text (s : string) : bool :=
  match s with
  | EmptyString => false
  | String c s' => negb (isspace c) || has_text s'
  end.

(** [{"role": role, "content": content}] *)
Definition entry (role content : string) : gmap string string :=
  <["content" := content]> (<["role" := role]> ∅).

(** The "Clear Conversation" button. *)
Definition clear_conversation (st : SessionState) : SessionState :=
  mkSession (user_email st) None [] None.

(** The block that reloads the history (lines 67-78).  The result holds the
    exception that leaves the block, if any, and the session state. *)
Definition load_history (cfg : Config) (http : Transport) (st : SessionState)
    : ST world (option exn * SessionState) :=
  match conversation_id st with
  | None => mret (None, st)
  | Some c =>
      if String.eqb c "" then mret (None, st)
      else
        history ← get_conversation_messages cfg http c;
        match history with
        | inr (JList l) =>
            mret (None, mkSession (user_email st) (conversation_id st) l None)
        | inr (JDict d) =>
            match d !! "error" with
            | Some err => mret (None, set_error (Some err) st)
            | None => mret (None, st)
            end
        | inl e =>
            match cls e with
            | BaseExceptionOnly => mret (Some e, st)
            | _ => mret (None, set_error (Some (text e)) st)
            end
        end
  end.

(** The block that sends the message typed (lines 102-120), up to the rerun
    of the script.  For a response that is a list, ["error" in response] is
    false and [response.get] raises the [AttributeError] caught below. *)
Definition submit (cfg : Config) (http : Transport) (submitted : bool)
    (user_input : string) (st : SessionState)
    : ST world (option exn * SessionState) :=
  if submitted && has_text user_input then
    let st := mkSession (user_email st) (conversation_id st)
                (messages st ++ [entry "user" user_input]) (error st) in
    response ← send_message cfg http user_input (user_email st)
                 (conversation_id st);
    match response with
    | inr (JDict d) =>
        match d !! "error" with
        | Some err => mret (None, set_error (Some err) st)
        | None =>
            mret (None,
                  mkSession (user_email st)
                    (match d !! "conversation_id" with
                     | Some c => Some c
                     | None => conversation_id st
                     end)
                    (messages st ++
                     [entry "assistant" (default "" (d !! "response"))])
                    None)
        end
    | inr (JList _) =>
        mret (None,
              set_error (Some "'list' object has no attribute 'get'") st)
    | inl e =>
        match cls e with
        | BaseExceptionOnly => mret (Some e, st)
        | _ => mret (None, set_error (Some (text e)) st)
        end
    end
  else mret (None, st).

End Frontend.

(** ** Sample inputs *)

Module Samples.

(** Tables whose decimal digits are 0-9 and the ARABIC-INDIC digits. *)
Definition tables : Unicode.tables.
Proof.
  refine (Unicode.mkTables
            (λ c, (48 <=? c) && (c <=? 57) || (0x660 <=? c) && (c <=? 0x669))%N
            _ _).
  - intros c Hc.
    destruct (N.leb_spec 0x660 c); [lia | by rewrite orb_false_r].
  - intros c [H1 H2].
    apply N.leb_le in H1, H2. rewrite H1, H2. apply orb_true_r.
Defined.

(** The text of 2025-05-14 and of 20:30 in ARABIC-INDIC digits. *)
Definition arabic_date : list N :=
  [0x662; 0x660; 0x662; 0x665; 45; 0x660; 0x665; 45; 0x661; 0x664]%N.
Definition arabic_time : list N :=
  [0x662; 0x660; 58; 0x663; 0x660]%N.
Definition arabic_message : list N :=
  IsoUnicode.render arabic_date arabic_time.

Definition agent_ok : string → string → App.failure + AgentResult.t :=
  λ _ _, inr (AgentResult.mk "Hello! How can I help?" None None).

Definition agent_down : string → string → App.failure + AgentResult.t :=
  λ _ _, inl (App.Raises_before_reply "agent is not reachable").

(** An agent whose result lacks the key [action_taken]: line 303 raises
    [KeyError('action_taken')]. *)
Definition agent_without_action : string → string → App.failure + AgentResult.t :=
  λ _ _, inl (App.Raises_after_reply "Hello! How can I help?" "'action_taken'").

Definition env (agent : string → string → App.failure + AgentResult.t) : App.ChatEnv :=
  App.mkChatEnv 0x550e8400e29b41d4a716446655440000
    "2023-03-01T14:00:00+00:00" "2023-03-01T14:00:00+00:00"
    "2023-03-01T14:05:00+00:00"
    1 "2023-03-01T14:00:01+00:00" agent 2 "2023-03-01T14:00:02+00:00".

Definition first_message : ChatMessage.t :=
  ChatMessage.mk "Book a meeting for tomorrow at 3pm" "user@example.com" None.

Definition first_response : ChatResponse.t :=
  ChatResponse.mk "Hello! How can I help?"
    "550e8400-e29b-41d4-a716-446655440000" None None.

Definition booking : BookEventRequest.t :=
  BookEventRequest.mk "1" "2023-03-02" "15:00" "John Doe" "user@example.com"
    (Some "Discuss project requirements").

(** A calendar whose client raises an [HTTPException] of its own. *)
Definition conflicting_calendar : Calendar.CalAPIClient :=
  λ _ _, inl (Calendar.Http_exception
                (mkHTTPException HTTP_409_CONFLICT "Slot already taken")).

(** A calendar that answers every call with the same error result. *)
Definition failing_calendar (message : string) : Calendar.CalAPIClient :=
  λ _ _, inr (<["message" := message]> (<["status" := "error"]> ∅)).

Definition config : ApiService.Config :=
  ApiService.mkConfig "http://localhost:8000" "test-api-key".

(** A network on which every request times out. *)
Definition timing_out : ApiService.Transport :=
  λ _ _, inl (ApiService.mkExn ApiService.RequestException "Read timed out.").

Definition world0 : ApiService.world := ApiService.mkWorld [] [].

(** [debug.log] cannot be opened for appending. *)
Definition unwritable : ApiService.Disk :=
  λ _ _, Some "[Errno 13] Permission denied: 'debug.log'".

(** The disk is full once the first entry is written. *)
Definition filling_up : ApiService.Disk :=
  λ n _, match n with
         | O => None
         | S _ => Some "[Errno 28] No space left on device"
         end.

Definition slot (start : Z) : Orchestrator.SlotCandidate :=
  Orchestrator.mkSlot "1" start (start + 1800) "".

(** A calendar whose resolver always offers [slots] and whose booking
    call always succeeds. *)
Definition services (slots : list Orchestrator.SlotCandidate)
    : Orchestrator.Services :=
  Orchestrator.mkServices (λ _ _ _, slots)
    (λ _ _ start _ _ _, Orchestrator.Success "b1" start (start + 1800)).

(** A second draw from the surroundings, with other uuids. *)
Definition env2 (agent : string → string → App.failure + AgentResult.t) : App.ChatEnv :=
  App.mkChatEnv 0x6fa459eaee8a3ca4894edb77e160355e
    "2023-03-01T15:00:00+00:00" "2023-03-01T15:00:00+00:00"
    "2023-03-01T15:00:00+00:00"
    3 "2023-03-01T15:00:01+00:00" agent 4 "2023-03-01T15:00:02+00:00".

Definition second_message : ChatMessage.t :=
  ChatMessage.mk "And the day after?" "user@example.com"
    (Some "550e8400-e29b-41d4-a716-446655440000").

(** A first message of another user. *)
Definition other_message : ChatMessage.t :=
  ChatMessage.mk "Cancel my meeting" "other@example.com" None.

(** The store after the first message has been answered. *)
Definition store1 : gmap string Conversation.t :=
  (App.chat (env agent_ok) first_message ∅).2.

(** The conversation it holds. *)
Definition conversation1 : Conversation.t :=
  Conversation.mk "550e8400-e29b-41d4-a716-446655440000" "user@example.com"
    [Message.mk "00000000-0000-0000-0000-000000000001"
       "Book a meeting for tomorrow at 3pm" "user" "2023-03-01T14:00:01+00:00";
     Message.mk "00000000-0000-0000-0000-000000000002"
       "Hello! How can I help?" "assistant" "2023-03-01T14:00:02+00:00"]
    "2023-03-01T14:00:00+00:00" "2023-03-01T14:00:00+00:00".

(** Two chats on one conversation: the second arrives while the first
    awaits the agent. *)
Definition both_suspended : Interleaved.state :=
  Interleaved.chat_begin (env2 agent_ok) second_message
    (Interleaved.chat_begin (env agent_ok) first_message Interleaved.start).

(** The state after the [i]-th suspended chat has gone on to its end. *)
Definition resumed (i : nat) (st : Interleaved.state) : Interleaved.state :=
  match Interleaved.chat_resume i st with
  | Some (_, st') => st'
  | None => st
  end.

(** The agent has answered the first, then the second. *)
Definition first_answered : Interleaved.state := resumed 0 both_suspended.
Definition both_answered : Interleaved.state := resumed 0 first_answered.

(** The page after the user has given an address. *)
Definition session0 : Frontend.SessionState :=
  Frontend.mkSession "user@example.com" None [] None.


(** A network that answers every request with status 200 and [body]. *)
Definition answering (body : ApiService.json) : ApiService.Transport :=
  λ _ _, inr (ApiService.mkResponse 200 ∅ "" (inr body)).

End Samples.

(** * Properties *)

(** Appends reduce under [simpl] once their first argument shows a
    constructor. *)
#[local] Arguments String.append !_ _ / : simpl nomatch.

(** ** Substring tests *)

Section PyStr_facts.
Import PyStr.

Lemma append_assoc (a b c : string) : (a +:+ b) +:+ c = a +:+ (b +:+ c).
Proof. induction a as [|x a IH]; simpl; [done | by rewrite IH]. Qed.

Lemma append_nil_r (a : string) : a +:+ "" = a.
Proof. induction a as [|x a IH]; simpl; [done | by rewrite IH]. Qed.

Lemma startswith_spec (p s : string) :
  startswith p s = true ↔ ∃ post, s = p +:+ post.
Proof.
  revert s. induction p as [|a p IH]; intros s; simpl.
  - split; [intros _; by exists s | done].
  - destruct s as [|b s].
    + split; [done | intros [post H]; discriminate].
    + rewrite andb_true_iff, IH. split.
      * intros [Hab [post ->]]. apply Ascii.eqb_eq in Hab as ->. by exists post.
      * intros [post H]. injection H as -> ->. split; [apply Ascii.eqb_refl | by exists post].
Qed.

(** [p in s] holds exactly when [s] splits around an occurrence of [p]. *)
Lemma contains_spec (p s : string) :
  contains p s = true ↔ ∃ pre post, s = pre +:+ p +:+ post.
Proof.
  induction s as [|b s IH]; simpl; rewrite orb_true_iff, startswith_spec.
  - split.
    + intros [[post H] | H]; [| done]. exists "", post. done.
    + intros (pre & post & H). left. destruct pre; [by exists post | discriminate].
  - rewrite IH. split.
    + intros [[post H] | (pre & post & ->)].
      * exists "", post. done.
      * exists (String b pre), post. done.
    + intros (pre & post & H). destruct pre as [|x pre]; simpl in H.
      * left. by exists post.
      * right. injection H as -> ->. by exists pre, post.
Qed.

End PyStr_facts.

(** ** [verify_api_key] *)

(** C10.  [verify_api_key] raises HTTP 401 "Invalid API key" if and only if
    the header value differs from the configured key; a missing header
    ([None]) always differs; on equal values the key is returned
    unchanged. *)
Theorem verify_api_key_401_iff (environ : gmap string string) (api_key : option string) :
  let valid_api_key := getenv environ "API_KEY" "test-api-key" in
  (verify_api_key environ api_key = Raise (mkHTTPException 401 "Invalid API key")
     ↔ api_key ≠ Some valid_api_key) ∧
  verify_api_key environ None = Raise (mkHTTPException 401 "Invalid API key") ∧
  verify_api_key environ (Some valid_api_key) = Return (Some valid_api_key) ∧
  (∀ e, verify_api_key environ api_key = Raise e
          → e = mkHTTPException 401 "Invalid API key") ∧
  (∀ k, verify_api_key environ api_key = Return k → k = api_key).
Proof.
  intros valid. unfold verify_api_key. fold valid.
  split; [split |]; [| | split; [| split; [| split]]].
  - case_decide; [done | discriminate].
  - intros H. case_decide; [done | contradiction].
  - case_decide as H; [done | discriminate].
  - case_decide as H; [exfalso; by apply H | done].
  - intros e. case_decide; congruence.
  - intros k. case_decide; congruence.
Qed.

Example verify_api_key_default :
  verify_api_key ∅ (Some "test-api-key") = Return (Some "test-api-key") ∧
  verify_api_key ∅ (Some "wrong") = Raise (mkHTTPException 401 "Invalid API key") ∧
  verify_api_key (<["API_KEY" := "s3cret"]> ∅) (Some "test-api-key")
    = Raise (mkHTTPException 401 "Invalid API key").
Proof. by vm_compute. Qed.

(** ** [extract_iso_datetime] *)

Section IsoExtract_facts.
Import IsoExtract.

Lemma match_atoms_spec (p : list atom) (s m rest : string) :
  match_atoms p s = Some (m, rest) ↔ s = m +:+ rest ∧ fullmatch p m = true.
Proof.
  revert s m rest. induction p as [|a p IH]; intros s m rest; simpl.
  - split.
    + intros [= <- <-]. done.
    + intros [-> H]. destruct m; [done | discriminate].
  - destruct s as [|c s].
    + split; [done |]. intros [H1 H2]. destruct m; discriminate.
    + destruct (atom_ok a c) eqn:Hc.
      * destruct (match_atoms p s) as [[m' r']|] eqn:Hm.
        -- apply IH in Hm as [-> Hf]. split.
           ++ intros [= <- <-]. simpl. by rewrite Hc, Hf.
           ++ intros [H1 H2]. destruct m as [|c' m]; [discriminate |].
              simpl in H1. injection H1 as <- H1.
              apply andb_true_iff in H2 as [_ H2].
              assert (match_atoms p (m' +:+ r') = Some (m, rest)) as Hx
                by (apply IH; by rewrite H1).
              assert (match_atoms p (m' +:+ r') = Some (m', r')) as Hy
                by (by apply IH).
              congruence.
        -- split; [done |]. intros [H1 H2].
           destruct m as [|c' m]; [discriminate |].
           simpl in H1. injection H1 as <- ->.
           apply andb_true_iff in H2 as [_ H2].
           assert (match_atoms p (m +:+ rest) = Some (m, rest)) as Hx
             by (by apply IH).
           congruence.
      * split; [done |]. intros [H1 H2].
        destruct m as [|c' m]; [discriminate |].
        simpl in H1. injection H1 as <- ->.
        apply andb_true_iff in H2 as [H2 _]. congruence.
Qed.

(** A run of literals matches its own text only. *)
Lemma fullmatch_lits (l y : string) : fullmatch (lits l) y = true ↔ y = l.
Proof.
  unfold lits. revert y. induction l as [|c l IH]; intros [|c' y];
    cbn [list_ascii_of_string map fullmatch atom_ok]; try done.
  rewrite andb_true_iff, IH, Ascii.eqb_eq. split.
  - by intros [-> ->].
  - by intros [= -> ->].
Qed.

(** The pattern matches at the start of [s] with groups [d] and [t]
    exactly when [s] begins with the rendering of a well-formed [d] and
    [t]. *)
Lemma match_here_spec (s d t : string) :
  match_here s = Some (d, t) ↔
  (∃ post, s = render d t +:+ post) ∧
  fullmatch date_atoms d = true ∧ fullmatch time_atoms t = true.
Proof.
  unfold match_here, render. split.
  - destruct (match_atoms date_atoms s) as [[d' r1]|] eqn:H1; [| done].
    destruct (match_atoms [Lit "T"] r1) as [[x r2]|] eqn:H2; [| done].
    destruct (match_atoms time_atoms r2) as [[t' r3]|] eqn:H3; [| done].
    destruct (match_atoms tail_atoms r3) as [[y r4]|] eqn:H4; [| done].
    intros [= <- <-].
    apply match_atoms_spec in H1 as [-> F1], H2 as [-> F2],
      H3 as [-> F3], H4 as [-> F4].
    repeat split; [| done..]. exists r4.
    change [Lit "T"] with (lits "T") in F2.
    apply fullmatch_lits in F2 as ->. apply fullmatch_lits in F4 as ->.
    by rewrite !append_assoc.
  - intros ([post ->] & F1 & F2). rewrite !append_assoc.
    assert (match_atoms date_atoms (d +:+ "T" +:+ t +:+ ":00.000Z" +:+ post)
            = Some (d, "T" +:+ t +:+ ":00.000Z" +:+ post)) as ->
      by (by apply match_atoms_spec).
    assert (match_atoms [Lit "T"] ("T" +:+ t +:+ ":00.000Z" +:+ post)
            = Some ("T", t +:+ ":00.000Z" +:+ post)) as -> by done.
    assert (match_atoms time_atoms (t +:+ ":00.000Z" +:+ post)
            = Some (t, ":00.000Z" +:+ post)) as ->
      by (by apply match_atoms_spec).
    done.
Qed.

(** A match at position 0 is the one [re.search] reports. *)
Lemma re_search_here (s : string) (g : string * string) :
  match_here s = Some g → re_search s = Some g.
Proof.
  intros H. destruct s as [|c s].
  - vm_compute in H. discriminate.
  - simpl re_search. by rewrite H.
Qed.

Lemma re_search_sound (s d t : string) :
  re_search s = Some (d, t) →
  (∃ pre post, s = pre +:+ render d t +:+ post) ∧
  fullmatch date_atoms d = true ∧ fullmatch time_atoms t = true.
Proof.
  induction s as [|c s IH]; simpl re_search.
  - done.
  - destruct (match_here (String c s)) as [g|] eqn:H.
    + intros [= ->]. apply match_here_spec in H as ([post H] & F1 & F2).
      split; [| done]. by exists "", post.
    + intros Hs. apply IH in Hs as ((pre & post & ->) & F1 & F2).
      split; [| done]. by exists (String c pre), post.
Qed.

Lemma re_search_complete (pre d t post : string) :
  fullmatch date_atoms d = true → fullmatch time_atoms t = true →
  ∃ g, re_search (pre +:+ render d t +:+ post) = Some g.
Proof.
  intros F1 F2. induction pre as [|c pre IH].
  - exists (d, t). simpl append.
    assert (match_here (render d t +:+ post) = Some (d, t)) as H
      by (apply match_here_spec; eauto).
    by apply re_search_here.
  - simpl append. simpl re_search.
    destruct (match_here _) as [g|]; [by exists g | exact IH].
Qed.

(** On the rendering itself the search stops at position 0. *)
Lemma re_search_render (d t : string) :
  fullmatch date_atoms d = true → fullmatch time_atoms t = true →
  re_search (render d t) = Some (d, t).
Proof.
  intros F1 F2.
  assert (match_here (render d t) = Some (d, t)) as H.
  { apply match_here_spec. split; [| done]. exists "". by rewrite append_nil_r. }
  by apply re_search_here.
Qed.

End IsoExtract_facts.

Section IsoExtract_claims.
Import IsoExtract.

(** C6.  For a date [D] of the form YYYY-MM-DD and a time [T] of the form
    HH:MM, extraction from the canonical rendering [D ++ "T" ++ T ++
    ":00.000Z"] returns exactly [{date: D, time: T}]; rendering that result
    again gives the same text, and extracting from it the same value. *)
Theorem extract_iso_datetime_render (D T : string) :
  fullmatch date_atoms D = true → fullmatch time_atoms T = true →
  extract_iso_datetime (render D T) = <["time" := T]> (<["date" := D]> ∅) ∧
  render_result (extract_iso_datetime (render D T)) = Some (render D T) ∧
  ∀ s, render_result (extract_iso_datetime (render D T)) = Some s →
       extract_iso_datetime s = extract_iso_datetime (render D T).
Proof.
  intros FD FT.
  assert (extract_iso_datetime (render D T)
          = <["time" := T]> (<["date" := D]> ∅)) as E
    by (unfold extract_iso_datetime; by rewrite re_search_render).
  assert (render_result (extract_iso_datetime (render D T))
          = Some (render D T)) as R.
  { rewrite E. unfold render_result.
    rewrite lookup_insert_ne, lookup_insert_eq by done.
    by rewrite lookup_insert_eq. }
  split; [exact E |]. split; [exact R |].
  intros s Hs. rewrite R in Hs. by injection Hs as <-.
Qed.

Lemma extract_iso_datetime_render_witness :
  fullmatch date_atoms "2025-05-14" = true ∧
  fullmatch time_atoms "20:30" = true ∧
  extract_iso_datetime "2025-05-14T20:30:00.000Z"
    = <["time" := "20:30"]> (<["date" := "2025-05-14"]> ∅).
Proof.
  split; [reflexivity |]. split; [reflexivity |].
  exact (proj1 (extract_iso_datetime_render "2025-05-14" "20:30"
                  eq_refl eq_refl)).
Defined.

(** On a text with code points below U+0100, extraction returns a
    [{date, time}] pair if and only if the message contains a substring of
    the form YYYY-MM-DDTHH:MM:00.000Z with the digits 0-9, and the empty
    dict if and only if it contains none. *)
Lemma extract_iso_datetime_latin1_iff (message : string) :
  ((∃ D T, extract_iso_datetime message
             = <["time" := T]> (<["date" := D]> ∅))
     ↔ has_iso_substring message) ∧
  (extract_iso_datetime message = ∅ ↔ ¬ has_iso_substring message) ∧
  extract_iso_datetime "Partial date: 2025-05-14" = ∅ ∧
  extract_iso_datetime "No date here" = ∅.
Proof.
  assert (∀ D T, <["time" := T]> (<["date" := D]> (∅ : gmap string string)) ≠ ∅)
    as Hne by (intros D T; apply insert_non_empty).
  unfold extract_iso_datetime, has_iso_substring.
  split; [| split; [| split; by vm_compute]].
  - split.
    + intros (D & T & H).
      destruct (re_search message) as [[d t]|] eqn:Hs.
      * apply re_search_sound in Hs as ((pre & post & ->) & F1 & F2).
        by exists pre, d, t, post.
      * symmetry in H. by apply Hne in H.
    + intros (pre & D & T & post & -> & F1 & F2).
      destruct (re_search_complete pre D T post F1 F2) as [[d t] ->].
      by exists d, t.
  - split.
    + intros H (pre & D & T & post & -> & F1 & F2).
      destruct (re_search_complete pre D T post F1 F2) as [[d t] Hs].
      rewrite Hs in H. by apply Hne in H.
    + intros H.
      destruct (re_search message) as [[d t]|] eqn:Hs; [| done].
      exfalso. apply H.
      apply re_search_sound in Hs as ((pre & post & ->) & F1 & F2).
      by exists pre, d, t, post.
Qed.

(** The messages of the script's [main]. *)
Example extract_iso_datetime_main :
  extract_iso_datetime "book a 30 min meeting for 2025-05-14T20:30:00.000Z"
    = <["time" := "20:30"]> (<["date" := "2025-05-14"]> ∅) ∧
  extract_iso_datetime
    "I need to schedule something on 2023-12-25T14:15:00.000Z for a Christmas meeting"
    = <["time" := "14:15"]> (<["date" := "2023-12-25"]> ∅).
Proof. unfold extract_iso_datetime. split; by vm_compute re_search. Qed.

(** The leftmost occurrence wins. *)
Example extract_iso_datetime_leftmost :
  extract_iso_datetime "2025-05-14T20:30:00.000Z or 2023-12-25T14:15:00.000Z"
    = <["time" := "20:30"]> (<["date" := "2025-05-14"]> ∅).
Proof. unfold extract_iso_datetime. by vm_compute re_search. Qed.

End IsoExtract_claims.

(** ** [extract_iso_datetime] on arbitrary text *)

Section IsoUnicode_facts.
Import IsoUnicode.
Variable digit : N → bool.

Lemma match_atoms_spec_cp (p : list atom) (s m rest : list N) :
  match_atoms digit p s = Some (m, rest)
  ↔ s = (m ++ rest)%list ∧ fullmatch digit p m = true.
Proof.
  revert s m rest. induction p as [|a p IH]; intros s m rest; simpl.
  - split.
    + intros [= <- <-]. done.
    + intros [-> H]. destruct m; [done | discriminate].
  - destruct s as [|c s].
    + split; [done |]. intros [H1 H2]. destruct m; discriminate.
    + destruct (atom_ok digit a c) eqn:Hc.
      * destruct (match_atoms digit p s) as [[m' r']|] eqn:Hm.
        -- apply IH in Hm as [-> Hf]. split.
           ++ intros [= <- <-]. simpl. by rewrite Hc, Hf.
           ++ intros [H1 H2]. destruct m as [|c' m]; [discriminate |].
              simpl in H1. injection H1 as <- H1.
              apply andb_true_iff in H2 as [_ H2].
              assert (match_atoms digit p (m' ++ r')%list = Some (m, rest)) as Hx
                by (apply IH; by rewrite H1).
              assert (match_atoms digit p (m' ++ r')%list = Some (m', r')) as Hy
                by (by apply IH).
              congruence.
        -- split; [done |]. intros [H1 H2].
           destruct m as [|c' m]; [discriminate |].
           simpl in H1. injection H1 as <- ->.
           apply andb_true_iff in H2 as [_ H2].
           assert (match_atoms digit p (m ++ rest)%list = Some (m, rest)) as Hx
             by (by apply IH).
           congruence.
      * split; [done |]. intros [H1 H2].
        destruct m as [|c' m]; [discriminate |].
        simpl in H1. injection H1 as <- ->.
        apply andb_true_iff in H2 as [H2 _]. congruence.
Qed.

Lemma fullmatch_lits_cp (l : string) (y : list N) :
  fullmatch digit (of_atom <$> IsoExtract.lits l) y = true ↔ y = of_string l.
Proof.
  unfold IsoExtract.lits, of_string. revert y.
  induction l as [|c l IH]; intros [|c' y];
    cbn [list_ascii_of_string map fmap list_fmap fullmatch atom_ok of_atom];
    try done.
  rewrite andb_true_iff, IH, N.eqb_eq. split.
  - by intros [-> ->].
  - by intros [= -> ->].
Qed.

Lemma match_here_spec_cp (s d t : list N) :
  match_here digit s = Some (d, t) ↔
  (∃ post, s = (render d t ++ post)%list) ∧
  fullmatch digit date_atoms d = true ∧ fullmatch digit time_atoms t = true.
Proof.
  unfold match_here, render. split.
  - destruct (match_atoms digit date_atoms s) as [[d' r1]|] eqn:H1; [| done].
    destruct (match_atoms digit T_atoms r1) as [[x r2]|] eqn:H2; [| done].
    destruct (match_atoms digit time_atoms r2) as [[t' r3]|] eqn:H3; [| done].
    destruct (match_atoms digit tail_atoms r3) as [[y r4]|] eqn:H4; [| done].
    intros [= <- <-].
    apply match_atoms_spec_cp in H1 as [-> F1], H2 as [-> F2],
      H3 as [-> F3], H4 as [-> F4].
    repeat split; [| done..]. exists r4.
    apply (fullmatch_lits_cp "T") in F2 as ->.
    apply (fullmatch_lits_cp ":00.000Z") in F4 as ->.
    by rewrite <- !app_assoc.
  - intros ([post ->] & F1 & F2). rewrite <- !app_assoc.
    assert (match_atoms digit date_atoms
              (d ++ of_string "T" ++ t ++ of_string ":00.000Z" ++ post)%list
            = Some (d, of_string "T" ++ t ++ of_string ":00.000Z" ++ post)%list)
      as -> by (by apply match_atoms_spec_cp).
    assert (match_atoms digit T_atoms
              (of_string "T" ++ t ++ of_string ":00.000Z" ++ post)%list
            = Some (of_string "T", t ++ of_string ":00.000Z" ++ post)%list)
      as -> by (apply match_atoms_spec_cp; split;
                [done | by apply (fullmatch_lits_cp "T")]).
    assert (match_atoms digit time_atoms
              (t ++ of_string ":00.000Z" ++ post)%list
            = Some (t, of_string ":00.000Z" ++ post)%list) as ->
      by (by apply match_atoms_spec_cp).
    assert (match_atoms digit tail_atoms (of_string ":00.000Z" ++ post)%list
            = Some (of_string ":00.000Z", post)) as ->
      by (apply match_atoms_spec_cp; split;
          [done | by apply (fullmatch_lits_cp ":00.000Z")]).
    done.
Qed.

Lemma re_search_here_cp (s : list N) (g : list N * list N) :
  match_here digit s = Some g → re_search digit s = Some g.
Proof. intros H. destruct s; cbn [re_search]; by rewrite H. Qed.

Lemma re_search_sound_cp (s d t : list N) :
  re_search digit s = Some (d, t) →
  (∃ pre post, s = (pre ++ render d t ++ post)%list) ∧
  fullmatch digit date_atoms d = true ∧ fullmatch digit time_atoms t = true.
Proof.
  induction s as [|c s IH]; cbn [re_search].
  - destruct (match_here digit []) as [g|] eqn:H; [| done].
    intros [= ->]. apply match_here_spec_cp in H as ([post H] & F1 & F2).
    split; [| done]. by exists [], post.
  - destruct (match_here digit (c :: s)) as [g|] eqn:H.
    + intros [= ->]. apply match_here_spec_cp in H as ([post H] & F1 & F2).
      split; [| done]. by exists [], post.
    + intros Hs. apply IH in Hs as ((pre & post & ->) & F1 & F2).
      split; [| done]. by exists (c :: pre), post.
Qed.

Lemma re_search_complete_cp (pre d t post : list N) :
  fullmatch digit date_atoms d = true → fullmatch digit time_atoms t = true →
  ∃ g, re_search digit (pre ++ render d t ++ post)%list = Some g.
Proof.
  intros F1 F2. induction pre as [|c pre IH].
  - exists (d, t). apply re_search_here_cp, match_here_spec_cp. eauto.
  - cbn [app re_search].
    destruct (match_here _ _) as [g|]; [by exists g | exact IH].
Qed.

Lemma fullmatch_length_cp (p : list atom) (s : list N) :
  fullmatch digit p s = true → List.length s = List.length p.
Proof.
  revert s. induction p as [|a p IH]; intros [|c s]; simpl; try done.
  intros [_ H]%andb_true_iff. by rewrite (IH _ H).
Qed.

(** With [digit] for [\d], extraction returns a pair exactly on the
    messages that hold an occurrence of the pattern, and the empty dict on
    the others. *)
Lemma extract_with_iff (message : list N) :
  ((∃ D T, extract_with digit message = <["time" := T]> (<["date" := D]> ∅))
     ↔ has_iso_substring digit message) ∧
  (extract_with digit message = ∅ ↔ ¬ has_iso_substring digit message).
Proof.
  assert (∀ D T, <["time" := T]> (<["date" := D]> (∅ : gmap string (list N))) ≠ ∅)
    as Hne by (intros D T; apply insert_non_empty).
  unfold extract_with, has_iso_substring. split.
  - split.
    + intros (D & T & H).
      destruct (re_search digit message) as [[d t]|] eqn:Hs.
      * apply re_search_sound_cp in Hs as ((pre & post & ->) & F1 & F2).
        by exists pre, d, t, post.
      * symmetry in H. by apply Hne in H.
    + intros (pre & D & T & post & -> & F1 & F2).
      destruct (re_search_complete_cp pre D T post F1 F2) as [[d t] ->].
      by exists d, t.
  - split.
    + intros H (pre & D & T & post & -> & F1 & F2).
      destruct (re_search_complete_cp pre D T post F1 F2) as [[d t] Hs].
      rewrite Hs in H. by apply Hne in H.
    + intros H.
      destruct (re_search digit message) as [[d t]|] eqn:Hs; [| done].
      exfalso. apply H.
      apply re_search_sound_cp in Hs as ((pre & post & ->) & F1 & F2).
      by exists pre, d, t, post.
Qed.

End IsoUnicode_facts.

Section IsoUnicode_claims.
Import IsoUnicode.

(** A larger class of digits matches more. *)
Lemma fullmatch_mono (d1 d2 : N → bool) (p : list atom) (s : list N) :
  (∀ c, d1 c = true → d2 c = true) →
  fullmatch d1 p s = true → fullmatch d2 p s = true.
Proof.
  intros Hd. revert s. induction p as [|a p IH]; intros [|c s]; simpl; try done.
  intros [H1 H2]%andb_true_iff. apply andb_true_iff. split; [| by apply IH].
  destruct a; simpl in *; [by apply Hd | done].
Qed.

Lemma ascii_digit_decimal (u : Unicode.tables) (c : N) :
  ascii_digit c = true → Unicode.decimal u c = true.
Proof.
  unfold ascii_digit. intros H. rewrite Unicode.decimal_latin1; [done |].
  apply andb_true_iff in H as [_ H%N.leb_le]. lia.
Qed.

Lemma of_string_cons (c : ascii) (s : string) :
  of_string (String c s) = N_of_ascii c :: of_string s.
Proof. reflexivity. Qed.

Lemma N_of_ascii_eqb (a b : ascii) :
  N.eqb (N_of_ascii a) (N_of_ascii b) = Ascii.eqb a b.
Proof.
  destruct (Ascii.eqb_spec a b) as [-> | Hne].
  - apply N.eqb_refl.
  - apply N.eqb_neq. intros E. apply Hne.
    by rewrite <- (ascii_N_embedding a), E, ascii_N_embedding.
Qed.

Lemma atom_ok_of_atom (u : Unicode.tables) (a : IsoExtract.atom) (c : ascii) :
  atom_ok (Unicode.decimal u) (of_atom a) (N_of_ascii c) = IsoExtract.atom_ok a c.
Proof.
  destruct a as [|l]; simpl.
  - rewrite Unicode.decimal_latin1 by apply N_ascii_bounded. done.
  - apply N_of_ascii_eqb.
Qed.

Lemma match_atoms_of_string (u : Unicode.tables) (p : list IsoExtract.atom)
    (s : string) :
  match_atoms (Unicode.decimal u) (of_atom <$> p) (of_string s)
  = prod_map of_string of_string <$> IsoExtract.match_atoms p s.
Proof.
  revert s. induction p as [|a p IH]; intros s; [done |].
  destruct s as [|c s]; [done |].
  rewrite fmap_cons, of_string_cons.
  cbn [match_atoms IsoExtract.match_atoms].
  rewrite atom_ok_of_atom. destruct (IsoExtract.atom_ok a c); [| done].
  rewrite IH. by destruct (IsoExtract.match_atoms p s) as [[m r]|].
Qed.

Lemma match_here_of_string (u : Unicode.tables) (s : string) :
  match_here (Unicode.decimal u) (of_string s)
  = prod_map of_string of_string <$> IsoExtract.match_here s.
Proof.
  unfold match_here, IsoExtract.match_here,
    date_atoms, T_atoms, time_atoms, tail_atoms.
  rewrite match_atoms_of_string.
  destruct (IsoExtract.match_atoms IsoExtract.date_atoms s) as [[d r1]|];
    [| done].
  cbn [fmap option_fmap option_map prod_map fst snd].
  rewrite match_atoms_of_string.
  destruct (IsoExtract.match_atoms [IsoExtract.Lit "T"] r1) as [[x r2]|];
    [| done].
  cbn [fmap option_fmap option_map prod_map fst snd].
  rewrite match_atoms_of_string.
  destruct (IsoExtract.match_atoms IsoExtract.time_atoms r2) as [[t r3]|];
    [| done].
  cbn [fmap option_fmap option_map prod_map fst snd].
  rewrite match_atoms_of_string.
  by destruct (IsoExtract.match_atoms IsoExtract.tail_atoms r3) as [[y r4]|].
Qed.

Lemma re_search_of_string (u : Unicode.tables) (s : string) :
  re_search (Unicode.decimal u) (of_string s)
  = prod_map of_string of_string <$> IsoExtract.re_search s.
Proof.
  assert (∀ l, re_search (Unicode.decimal u) l
               = match match_here (Unicode.decimal u) l with
                 | Some g => Some g
                 | None => match l with
                           | [] => None
                           | _ :: l' => re_search (Unicode.decimal u) l'
                           end
                 end) as Hunfold by (by intros []).
  induction s as [|c s IH]; rewrite Hunfold, match_here_of_string;
    cbn [IsoExtract.re_search].
  - by destruct (IsoExtract.match_here "").
  - destruct (IsoExtract.match_here (String c s)); [done |].
    rewrite of_string_cons. exact IH.
Qed.

(** On a text with code points below U+0100 the two models of
    [extract_iso_datetime] agree. *)
Lemma extract_iso_datetime_of_string (u : Unicode.tables) (s : string) :
  extract_iso_datetime u (of_string s)
  = of_string <$> IsoExtract.extract_iso_datetime s.
Proof.
  unfold extract_iso_datetime, extract_with, IsoExtract.extract_iso_datetime.
  rewrite re_search_of_string.
  destruct (IsoExtract.re_search s) as [[d t]|]; simpl.
  - by rewrite !fmap_insert, fmap_empty.
  - by rewrite fmap_empty.
Qed.

(** The date and the time in ARABIC-INDIC digits match the two groups. *)
Lemma arabic_groups (u : Unicode.tables) :
  fullmatch (Unicode.decimal u) date_atoms Samples.arabic_date = true ∧
  fullmatch (Unicode.decimal u) time_atoms Samples.arabic_time = true.
Proof.
  split; cbn; rewrite !Unicode.decimal_arabic_indic by lia; reflexivity.
Qed.

Lemma extract_iso_datetime_arabic (u : Unicode.tables) :
  extract_iso_datetime u Samples.arabic_message
  = <["time" := Samples.arabic_time]> (<["date" := Samples.arabic_date]> ∅).
Proof.
  destruct (arabic_groups u) as [F1 F2].
  unfold extract_iso_datetime, extract_with, Samples.arabic_message.
  assert (re_search (Unicode.decimal u)
            (render Samples.arabic_date Samples.arabic_time)
          = Some (Samples.arabic_date, Samples.arabic_time)) as ->; [| done].
  apply re_search_here_cp, match_here_spec_cp. split; [| done].
  exists []. by rewrite app_nil_r.
Qed.

(** C7.  Extraction returns a [{date, time}] pair if and only if the
    message contains a substring of the form YYYY-MM-DDTHH:MM:00.000Z in
    which each of Y, M, D and H is a decimal digit in the sense of [\d],
    that is, any Unicode decimal digit, and the empty dict if and only if it
    contains none; it is a total function (nothing is raised).  A substring
    of that form with the digits 0-9 is one of them; a message with only a
    bare date gives the empty dict; a date and a time in ARABIC-INDIC digits
    are extracted. *)
Theorem extract_iso_datetime_iff (u : Unicode.tables) (message : list N) :
  ((∃ D T, extract_iso_datetime u message
             = <["time" := T]> (<["date" := D]> ∅))
     ↔ has_iso_substring (Unicode.decimal u) message) ∧
  (extract_iso_datetime u message = ∅
     ↔ ¬ has_iso_substring (Unicode.decimal u) message) ∧
  (has_iso_substring ascii_digit message
     → has_iso_substring (Unicode.decimal u) message) ∧
  extract_iso_datetime u (of_string "Partial date: 2025-05-14") = ∅ ∧
  extract_iso_datetime u (of_string "No date here") = ∅ ∧
  extract_iso_datetime u Samples.arabic_message
    = <["time" := Samples.arabic_time]> (<["date" := Samples.arabic_date]> ∅).
Proof.
  split; [apply extract_with_iff |]. split; [apply extract_with_iff |].
  split; [| split; [| split]].
  - intros (pre & D & T & post & -> & F1 & F2).
    exists pre, D, T, post. split; [done |].
    split; (eapply fullmatch_mono; [apply ascii_digit_decimal | done]).
  - rewrite extract_iso_datetime_of_string.
    assert (IsoExtract.extract_iso_datetime "Partial date: 2025-05-14" = ∅)
      as -> by (by vm_compute).
    apply fmap_empty.
  - rewrite extract_iso_datetime_of_string.
    assert (IsoExtract.extract_iso_datetime "No date here" = ∅)
      as -> by (by vm_compute).
    apply fmap_empty.
  - apply extract_iso_datetime_arabic.
Qed.

(** C7, as the claim reads with the digits 0-9: a message whose date and
    time are written in ARABIC-INDIC digits holds no substring
    YYYY-MM-DDTHH:MM:00.000Z with digits 0-9, and extraction returns a pair
    for it all the same. *)
Lemma extract_iso_datetime_arabic_indic :
  (∀ u : Unicode.tables,
     extract_iso_datetime u Samples.arabic_message
     = <["time" := Samples.arabic_time]> (<["date" := Samples.arabic_date]> ∅)) ∧
  ¬ has_iso_substring ascii_digit Samples.arabic_message.
Proof.
  split; [exact extract_iso_datetime_arabic |].
  intros (pre & D & T & post & E & F1 & F2).
  destruct (re_search_complete_cp ascii_digit pre D T post F1 F2) as [g Hg].
  rewrite <- E in Hg. by vm_compute in Hg.
Qed.

(** The sample tables give the same results. *)
Example extract_iso_datetime_sample_tables :
  extract_iso_datetime Samples.tables Samples.arabic_message
    = <["time" := Samples.arabic_time]> (<["date" := Samples.arabic_date]> ∅) ∧
  extract_iso_datetime Samples.tables
    (of_string "book a 30 min meeting for 2025-05-14T20:30:00.000Z")
    = <["time" := of_string "20:30"]> (<["date" := of_string "2025-05-14"]> ∅) ∧
  extract_iso_datetime Samples.tables (of_string "Partial date: 2025-05-14") = ∅.
Proof.
  unfold extract_iso_datetime, extract_with.
  split; [| split]; by vm_compute re_search.
Qed.

End IsoUnicode_claims.

(** ** The conversation store *)

Section Store_facts.
Import App.

Lemma append_eq_nil (a b : string) : a +:+ b = "" → a = "" ∧ b = "".
Proof. destruct a; simpl; [done | discriminate]. Qed.

(** The text of a uuid is never empty. *)
Lemma uuid_str_nonempty (u : N) : Uuid.str u ≠ "".
Proof.
  unfold Uuid.str. intros H.
  apply append_eq_nil in H as [_ H]. discriminate.
Qed.

Example uuid_str_example :
  Uuid.str 0x550e8400e29b41d4a716446655440000
    = "550e8400-e29b-41d4-a716-446655440000".
Proof. by vm_compute. Qed.

Lemma store_ok_empty : store_ok ∅.
Proof. intros k c H. by rewrite lookup_empty in H. Qed.

Lemma store_ok_insert (conversations : Store) (k : string) (c : Conversation.t) :
  store_ok conversations → Conversation.id c = k → (∃ u, k = Uuid.str u) →
  store_ok (<[k := c]> conversations).
Proof.
  intros Hok Hid Hu k' c'. rewrite lookup_insert.
  case_decide; [| apply Hok]. intros [= <-]. by subst.
Qed.

Lemma store_ok_delete (conversations : Store) (k : string) :
  store_ok conversations → store_ok (delete k conversations).
Proof.
  intros Hok k' c'. rewrite lookup_delete.
  case_decide; [done | apply Hok].
Qed.

(** A key of a well-formed store passes the truthiness test of line 265. *)
Lemma existing_Some (conversations : Store) (cid : string) (c : Conversation.t) :
  store_ok conversations → conversations !! cid = Some c →
  existing conversations (Some cid) = Some (cid, c).
Proof.
  intros Hok Hc. unfold existing.
  destruct (String.eqb_spec cid "") as [-> | _]; [| by rewrite Hc].
  destruct (Hok _ _ Hc) as [_ [u Hu]]. symmetry in Hu.
  by apply uuid_str_nonempty in Hu.
Qed.

Lemma existing_None (conversations : Store) (conversation_id : option string) :
  (conversation_id = None ∨
   ∃ cid, conversation_id = Some cid ∧ conversations !! cid = None) →
  existing conversations conversation_id = None.
Proof.
  intros [-> | (cid & -> & H)]; [done |]. unfold existing.
  destruct (String.eqb cid ""); [done | by rewrite H].
Qed.

(** Every handler keeps the store well formed. *)
Lemma chat_store_ok w message (conversations : Store) :
  store_ok conversations → store_ok (chat w message conversations).2.
Proof.
  intros Hok. unfold chat.
  destruct (existing conversations _) as [[cid c]|] eqn:He.
  - assert (conversations !! cid = Some c) as Hc.
    { unfold existing in He. destruct (ChatMessage.conversation_id message) as [x|]; [| done].
      destruct (String.eqb x ""); [done |].
      destruct (conversations !! x) eqn:Hx; [| done]. by injection He as <- <-. }
    destruct (Hok _ _ Hc) as [Hid Hu].
    destruct (process_message w _ _) as [[e|response e]|result]; simpl;
      repeat apply store_ok_insert; done.
  - destruct (process_message w _ _) as [[e|response e]|result]; simpl;
      repeat apply store_ok_insert; eauto.
Qed.

Lemma create_conversation_store_ok u n1 n2 email (conversations : Store) :
  store_ok conversations →
  store_ok (create_conversation u n1 n2 email conversations).2.
Proof. intros Hok. apply store_ok_insert; eauto. Qed.

Lemma delete_conversation_store_ok cid (conversations : Store) :
  store_ok conversations → store_ok (delete_conversation cid conversations).2.
Proof.
  intros Hok. unfold delete_conversation.
  destruct (conversations !! cid); simpl; [by apply store_ok_delete | done].
Qed.

(** Every store the application can hold is well formed. *)
Lemma reachable_store_ok (conversations : Store) :
  reachable conversations → store_ok conversations.
Proof.
  induction 1 as [|s s' _ IH Hstep]; [apply store_ok_empty |].
  destruct Hstep.
  - by apply chat_store_ok.
  - by apply create_conversation_store_ok.
  - by apply delete_conversation_store_ok.
Qed.

End Store_facts.

Section Store_claims.
Import App.

(** What one run of [chat] does, with the writes to one key merged. *)
Lemma chat_run w message (conversations : Store) :
  let target :=
    match existing conversations (ChatMessage.conversation_id message) with
    | None =>
        (Uuid.str (conversation_uuid w),
         new_Conversation (conversation_uuid w) (conversation_created w)
           (conversation_updated w) (ChatMessage.user_email message))
    | Some (cid, c) => (cid, Conversation.set_updated_at (existing_updated w) c)
    end in
  let um := new_Message (user_message_uuid w) (user_message_now w)
              (ChatMessage.message message) "user" in
  let am response :=
    new_Message (assistant_message_uuid w) (assistant_message_now w)
      response "assistant" in
  chat w message conversations =
  match process_message w (ChatMessage.message message)
          (ChatMessage.user_email message) with
  | inl (Raises_before_reply e) =>
      (Raise (mkHTTPException 500 e),
       <[target.1 := Conversation.append um target.2]> conversations)
  | inl (Raises_after_reply response e) =>
      (Raise (mkHTTPException 500 e),
       <[target.1 :=
           Conversation.append (am response)
             (Conversation.append um target.2)]> conversations)
  | inr result =>
      (Return (ChatResponse.mk (AgentResult.response result) target.1
                 (AgentResult.action_taken result) (AgentResult.details result)),
       <[target.1 :=
           Conversation.append (am (AgentResult.response result))
             (Conversation.append um target.2)]> conversations)
  end.
Proof.
  unfold chat.
  destruct (existing conversations _) as [[cid c]|];
    destruct (process_message w _ _) as [[e|response e]|result]; simpl;
    by rewrite !insert_insert_eq.
Qed.

(** The transcript a run of [chat] leaves, from the one it found. *)
Lemma chat_extends w message (c0 : Conversation.t) :
  let outcome := process_message w (ChatMessage.message message)
                   (ChatMessage.user_email message) in
  let um := new_Message (user_message_uuid w) (user_message_now w)
              (ChatMessage.message message) "user" in
  let am response :=
    new_Message (assistant_message_uuid w) (assistant_message_now w)
      response "assistant" in
  ∀ c',
    c' = match outcome with
         | inl (Raises_before_reply _) => Conversation.append um c0
         | inl (Raises_after_reply response _) =>
             Conversation.append (am response) (Conversation.append um c0)
         | inr result =>
             Conversation.append (am (AgentResult.response result))
               (Conversation.append um c0)
         end →
    Conversation.id c' = Conversation.id c0 ∧
    Conversation.user_email c' = Conversation.user_email c0 ∧
    Conversation.created_at c' = Conversation.created_at c0 ∧
    Conversation.updated_at c' = Conversation.updated_at c0 ∧
    extended_by outcome (ChatMessage.message message)
      (Conversation.messages c0) (Conversation.messages c').
Proof.
  intros outcome um am c' ->. unfold extended_by.
  destruct outcome as [[e|response e]|result]; simpl;
    (do 4 (split; [done |])); exists um; (do 2 (split; [done |])).
  - done.
  - exists (am response). by rewrite <- app_assoc.
  - exists (am (AgentResult.response result)). by rewrite <- app_assoc.
Qed.

(** C3 (amended).  If [conversation_id] is absent, empty or not a key of the
    store, [chat] files a new conversation under the text of the uuid4 it
    draws, owned by the sender, and changes no other key; that identifier is
    new to the store when the draw is not already a key, and is not checked:
    the conversation found under a repeated draw is replaced.  If
    [conversation_id] is a non-empty key of the store, no key is added, the
    conversation under it keeps its [id], [user_email] and [created_at] and
    gets the new [updated_at], and no other key changes.  Either way the
    transcript is extended by the user's message, and by the assistant's as
    well unless lines 285-294 raise.  There is a [ChatResponse] exactly when
    lines 285-305 do not raise, and it carries the new identifier in the
    first case and the identifier of the request in the second; when they
    raise, the reply is HTTP 500 with [str(e)] and carries no identifier. *)
Theorem chat_get_or_create w message (conversations : Store) :
  let new_id := Uuid.str (conversation_uuid w) in
  let outcome := process_message w (ChatMessage.message message)
                   (ChatMessage.user_email message) in
  let r := (chat w message conversations).1 in
  let conversations' := (chat w message conversations).2 in
  ((ChatMessage.conversation_id message = None ∨
    ChatMessage.conversation_id message = Some "" ∨
    ∃ cid, ChatMessage.conversation_id message = Some cid ∧
           conversations !! cid = None) →
     (∃ c, conversations' !! new_id = Some c ∧ Conversation.id c = new_id ∧
           Conversation.user_email c = ChatMessage.user_email message ∧
           Conversation.created_at c = conversation_created w ∧
           extended_by outcome (ChatMessage.message message) []
             (Conversation.messages c)) ∧
     (∀ k, k ≠ new_id → conversations' !! k = conversations !! k) ∧
     dom conversations' = {[new_id]} ∪ dom conversations ∧
     (∀ resp, r = Return resp → ChatResponse.conversation_id resp = new_id)) ∧
  (∀ cid c, ChatMessage.conversation_id message = Some cid → cid ≠ "" →
            conversations !! cid = Some c →
     (∃ c', conversations' !! cid = Some c' ∧
            Conversation.id c' = Conversation.id c ∧
            Conversation.user_email c' = Conversation.user_email c ∧
            Conversation.created_at c' = Conversation.created_at c ∧
            Conversation.updated_at c' = existing_updated w ∧
            extended_by outcome (ChatMessage.message message)
              (Conversation.messages c) (Conversation.messages c')) ∧
     (∀ k, k ≠ cid → conversations' !! k = conversations !! k) ∧
     dom conversations' = dom conversations ∧
     (∀ resp, r = Return resp → ChatResponse.conversation_id resp = cid)) ∧
  ((∃ resp, r = Return resp) ↔ ∃ result, outcome = inr result) ∧
  (∀ e, outcome = inl (Raises_before_reply e) →
        r = Raise (mkHTTPException 500 e)) ∧
  (∀ response e, outcome = inl (Raises_after_reply response e) →
                 r = Raise (mkHTTPException 500 e)).
Proof.
  intros new_id outcome r conversations'.
  subst r conversations'. rewrite chat_run. cbv zeta. fold outcome.
  split; [| split; [| split; [| split]]].
  - intros Habs.
    assert (existing conversations (ChatMessage.conversation_id message) = None)
      as ->.
    { destruct Habs as [-> | [-> | (cid & -> & H)]]; [done | done |].
      unfold existing. destruct (String.eqb cid ""); [done | by rewrite H]. }
    simpl.
    set (c0 := new_Conversation _ _ _ _).
    pose proof (chat_extends w message c0 _ eq_refl) as Hext.
    fold outcome in Hext. cbv zeta in Hext.
    destruct Hext as (Hid & Hu & Hc & _ & Hext).
    split; [| split; [| split]].
    + eexists. split; [| split; [exact Hid | split; [exact Hu |
        split; [exact Hc | exact Hext]]]].
      destruct outcome as [[e|response e]|result]; apply lookup_insert_eq.
    + intros k Hk.
      destruct outcome as [[e|response e]|result]; simpl;
        by rewrite lookup_insert_ne.
    + destruct outcome as [[e|response e]|result]; simpl;
        by rewrite dom_insert_L.
    + intros resp.
      destruct outcome as [[e|response e]|result]; simpl; intros ?;
        by simplify_eq.
  - intros cid c Hcid Hne Hc. rewrite Hcid.
    assert (existing conversations (Some cid) = Some (cid, c)) as ->.
    { unfold existing. destruct (String.eqb_spec cid ""); [done | by rewrite Hc]. }
    simpl.
    set (c0 := Conversation.set_updated_at _ c).
    pose proof (chat_extends w message c0 _ eq_refl) as Hext.
    fold outcome in Hext. cbv zeta in Hext.
    destruct Hext as (Hid & Hu & Hcr & Hup & Hext).
    assert (cid ∈ dom conversations) as Hin by (apply elem_of_dom; eauto).
    split; [| split; [| split]].
    + eexists. split; [| split; [exact Hid | split; [exact Hu |
        split; [exact Hcr | split; [exact Hup | exact Hext]]]]].
      destruct outcome as [[e|response e]|result]; apply lookup_insert_eq.
    + intros k Hk.
      destruct outcome as [[e|response e]|result]; simpl;
        by rewrite lookup_insert_ne.
    + destruct outcome as [[e|response e]|result]; simpl;
        rewrite dom_insert_L;
        by apply subseteq_union_1_L, singleton_subseteq_l.
    + intros resp.
      destruct outcome as [[e|response e]|result]; simpl; intros ?;
        by simplify_eq.
  - destruct outcome as [[e|response e]|result]; simpl; split.
    + intros [resp H]. discriminate.
    + intros [result H]. discriminate.
    + intros [resp H]. discriminate.
    + intros [result H]. discriminate.
    + intros _. by exists result.
    + intros _. eauto.
  - intros e ->. done.
  - intros response e ->. done.
Qed.

(** C9.  For an identifier that is not a key of the store, [get_conversation],
    [delete_conversation] and [get_conversation_messages] each raise HTTP
    404 "Conversation not found" and leave the store as it was. *)
Theorem unknown_conversation_404 (conversations : Store) (conversation_id : string) :
  conversations !! conversation_id = None →
  get_conversation conversation_id conversations
    = (Raise (mkHTTPException 404 "Conversation not found"), conversations) ∧
  delete_conversation conversation_id conversations
    = (Raise (mkHTTPException 404 "Conversation not found"), conversations) ∧
  get_conversation_messages conversation_id conversations
    = (Raise (mkHTTPException 404 "Conversation not found"), conversations).
Proof.
  intros H.
  unfold get_conversation, delete_conversation, get_conversation_messages.
  by rewrite H.
Qed.

(** For a key of the store the three handlers answer, and only the
    deletion changes the store. *)
Lemma known_conversation (conversations : Store) (conversation_id : string) c :
  conversations !! conversation_id = Some c →
  (∃ s, get_conversation conversation_id conversations = (Return s, conversations)) ∧
  (∃ m, delete_conversation conversation_id conversations
          = (Return m, delete conversation_id conversations)) ∧
  get_conversation_messages conversation_id conversations
    = (Return (Conversation.messages c), conversations).
Proof.
  intros H.
  unfold get_conversation, delete_conversation, get_conversation_messages.
  rewrite H. eauto.
Qed.

End Store_claims.

Section Store_claims_2.
Import App.

Example store1_holds_conversation1 :
  Samples.store1 !! "550e8400-e29b-41d4-a716-446655440000"
    = Some Samples.conversation1.
Proof. by vm_compute. Qed.

(** C3, as stated, fails in two ways.  When the agent call raises, the
    conversation is created, but the reply is HTTP 500 and carries no
    identifier.  And the identifier of a new conversation is whatever uuid4
    yields: when that text is already a key of the store, the response
    carries an identifier that is not fresh. *)
Lemma chat_agent_failure_no_identifier :
  (chat (Samples.env Samples.agent_down) Samples.first_message ∅).1
    = Raise (mkHTTPException 500 "agent is not reachable") ∧
  is_Some ((chat (Samples.env Samples.agent_down) Samples.first_message ∅).2
             !! "550e8400-e29b-41d4-a716-446655440000") ∧
  (¬ ∃ resp, (chat (Samples.env Samples.agent_down) Samples.first_message ∅).1
               = Return resp ∧
             ChatResponse.conversation_id resp
               = "550e8400-e29b-41d4-a716-446655440000") ∧
  ∃ resp, (chat (Samples.env Samples.agent_ok) Samples.other_message
             Samples.store1).1 = Return resp ∧
          is_Some (Samples.store1 !! ChatResponse.conversation_id resp).
Proof.
  split; [by vm_compute |]. split; [| split].
  - rewrite chat_run. simpl. rewrite lookup_insert_eq. eauto.
  - intros (resp & H & _). vm_compute in H. discriminate.
  - exists Samples.first_response. split; [reflexivity |].
    exists Samples.conversation1. by vm_compute.
Qed.

(** C4 (amended).  A successful [chat] appends exactly two messages, the
    user's and then the assistant's, to the transcript of the conversation
    of the request.  If the request names a stored conversation by a
    non-empty [conversation_id], that is the one: the response carries its
    identifier, what it held before stays in front, unchanged, and every
    other key of the store is as it was.  Otherwise the two messages are the
    whole transcript of a conversation filed under the text of the uuid4
    drawn, and every other key is as it was; every conversation stored
    before is unchanged when that text was not a key, and the one stored
    under it is replaced when it was. *)
Theorem chat_appends_two w message (conversations : Store) resp :
  (chat w message conversations).1 = Return resp →
  let conversations' := (chat w message conversations).2 in
  let new_id := Uuid.str (conversation_uuid w) in
  ∃ um am,
    Message.role um = "user" ∧
    Message.content um = ChatMessage.message message ∧
    Message.role am = "assistant" ∧
    Message.content am = ChatResponse.response resp ∧
    (∀ cid c, ChatMessage.conversation_id message = Some cid → cid ≠ "" →
              conversations !! cid = Some c →
       ChatResponse.conversation_id resp = cid ∧
       (∃ c', conversations' !! cid = Some c' ∧
              Conversation.messages c'
                = (Conversation.messages c ++ [um; am])%list) ∧
       ∀ k, k ≠ cid → conversations' !! k = conversations !! k) ∧
    ((ChatMessage.conversation_id message = None ∨
      ChatMessage.conversation_id message = Some "" ∨
      ∃ cid, ChatMessage.conversation_id message = Some cid ∧
             conversations !! cid = None) →
       ChatResponse.conversation_id resp = new_id ∧
       (∃ c', conversations' !! new_id = Some c' ∧
              Conversation.messages c' = [um; am]) ∧
       (∀ k, k ≠ new_id → conversations' !! k = conversations !! k) ∧
       (conversations !! new_id = None →
        ∀ k c, conversations !! k = Some c → conversations' !! k = Some c)).
Proof.
  rewrite chat_run. cbv zeta.
  destruct (process_message w _ _) as [[e|response e]|result]; [done | done |].
  simpl. intros [= <-]. simpl.
  exists (new_Message (user_message_uuid w) (user_message_now w)
            (ChatMessage.message message) "user"),
    (new_Message (assistant_message_uuid w) (assistant_message_now w)
       (AgentResult.response result) "assistant").
  do 4 (split; [reflexivity |]). split.
  - intros cid c Hcid Hne Hc. rewrite Hcid.
    assert (existing conversations (Some cid) = Some (cid, c)) as ->.
    { unfold existing. destruct (String.eqb_spec cid ""); [done | by rewrite Hc]. }
    simpl. split; [done |]. split.
    + eexists. split; [apply lookup_insert_eq |]. simpl. by rewrite <- app_assoc.
    + intros k Hk. by rewrite lookup_insert_ne.
  - intros Habs.
    assert (existing conversations (ChatMessage.conversation_id message) = None)
      as ->.
    { destruct Habs as [-> | [-> | (cid & -> & H)]]; [done | done |].
      unfold existing. destruct (String.eqb cid ""); [done | by rewrite H]. }
    simpl. split; [done |]. split; [| split].
    + eexists. split; [apply lookup_insert_eq | done].
    + intros k Hk. by rewrite lookup_insert_ne.
    + intros Hfresh k c Hk. rewrite lookup_insert_ne; [done |]. congruence.
Qed.

Lemma chat_appends_two_witness :
  ∃ c' um am,
    (chat (Samples.env2 Samples.agent_ok) Samples.second_message
       Samples.store1).2 !! "550e8400-e29b-41d4-a716-446655440000" = Some c' ∧
    Conversation.messages c'
      = (Conversation.messages Samples.conversation1 ++ [um; am])%list ∧
    Message.content um = "And the day after?".
Proof.
  destruct (chat_appends_two (Samples.env2 Samples.agent_ok)
              Samples.second_message Samples.store1 Samples.first_response
              eq_refl)
    as (um & am & _ & Hum & _ & _ & Hnamed & _).
  destruct (Hnamed "550e8400-e29b-41d4-a716-446655440000"
              Samples.conversation1 eq_refl)
    as (_ & (c' & Hc' & Hm) & _); [discriminate | by vm_compute |].
  exists c', um, am. split; [exact Hc' |]. split; [exact Hm | exact Hum].
Defined.

(** C4, as stated, fails when the uuid4 drawn for a new conversation is
    already a key of the store: the request succeeds, and the conversation
    stored under that key, another user's, is replaced by the new one; its
    messages are gone. *)
Lemma chat_repeated_uuid_replaces :
  Samples.store1 !! "550e8400-e29b-41d4-a716-446655440000"
    = Some Samples.conversation1 ∧
  ∃ resp c',
    (chat (Samples.env Samples.agent_ok) Samples.other_message
       Samples.store1).1 = Return resp ∧
    (chat (Samples.env Samples.agent_ok) Samples.other_message
       Samples.store1).2 !! "550e8400-e29b-41d4-a716-446655440000" = Some c' ∧
    Conversation.user_email c' = "other@example.com" ∧
    ¬ (Conversation.messages Samples.conversation1
         `prefix_of` Conversation.messages c').
Proof.
  split; [by vm_compute |].
  eexists _, _. split; [reflexivity |]. split; [by vm_compute |].
  split; [reflexivity |]. intros [k Hk]. simpl in Hk. discriminate.
Qed.

Lemma unknown_conversation_404_witness :
  get_conversation "no-such-id" ∅
    = (Raise (mkHTTPException 404 "Conversation not found"), ∅) ∧
  delete_conversation "no-such-id" ∅
    = (Raise (mkHTTPException 404 "Conversation not found"), ∅) ∧
  get_conversation_messages "no-such-id" ∅
    = (Raise (mkHTTPException 404 "Conversation not found"), ∅).
Proof. exact (unknown_conversation_404 ∅ "no-such-id" eq_refl). Defined.

End Store_claims_2.

(** ** The calendar endpoints *)

Section Calendar_claims.
Import PyStr Calendar.

Lemma contains_occurs (p s : string) : contains p s = true ↔ occurs p s.
Proof. apply contains_spec. Qed.

Lemma contains_not_occurs (p s : string) : contains p s = false ↔ ¬ occurs p s.
Proof. rewrite <- contains_occurs. by destruct (contains p s). Qed.

(** One run of [book_event]: one call, then a case distinction on its
    answer. *)
Lemma book_event_run cal_api event (issued : list call) :
  book_event cal_api event issued =
  (match cal_api (List.length issued) (book_event_call event) with
   | inl e => reraise e
   | inr booking_result =>
       if decide (booking_result !! "status" = Some "error")
       then Raise (booking_error
                     (default "Failed to book event" (booking_result !! "message")))
       else Return booking_result
   end,
   (issued ++ [book_event_call event])%list).
Proof.
  unfold book_event, invoke, mbind, ST_bind, mret, ST_ret, book_event_call,
    IsoExtract.render.
  destruct (cal_api _ _) as [e|booking_result]; [done |].
  by case_decide.
Qed.

(** C5.  The start instant that [book_event] and [reschedule_event] send to
    the remote calendar is exactly [D ++ "T" ++ T ++ ":00.000Z"] for the
    date [D] and the time [T] of the request, whatever these two texts
    are; the request has no time zone that could enter. *)
Theorem start_instant_sent cal_api event event_id reschedule_data
    (issued : list call) :
  (book_event cal_api event issued).2 =
    (issued ++
     [Book_event (BookEventRequest.event_type_id event)
        (BookEventRequest.date event +:+ "T" +:+ BookEventRequest.time event
           +:+ ":00.000Z")
        (BookEventRequest.name event) (BookEventRequest.email event)
        (BookEventRequest.reason event)])%list ∧
  (reschedule_event cal_api event_id reschedule_data issued).2 =
    (issued ++
     [Reschedule_booking event_id
        (RescheduleEventRequest.new_date reschedule_data +:+ "T"
           +:+ RescheduleEventRequest.new_time reschedule_data
           +:+ ":00.000Z")])%list.
Proof.
  split.
  - by rewrite book_event_run.
  - unfold reschedule_event, invoke, mbind, ST_bind, mret, ST_ret.
    destruct (cal_api _ _) as [e|result]; [done |]. by case_decide.
Qed.

Example start_instant_sent_example :
  (book_event (Samples.failing_calendar "x") Samples.booking []).2
    = [Book_event "1" "2023-03-02T15:00:00.000Z" "John Doe" "user@example.com"
         (Some "Discuss project requirements")] ∧
  (reschedule_event (Samples.failing_calendar "x") "42"
     (RescheduleEventRequest.mk "2023-03-03" "14:00") []).2
    = [Reschedule_booking "42" "2023-03-03T14:00:00.000Z"].
Proof. by vm_compute. Qed.

(** C1 (amended).  [book_event] issues the remote call exactly once,
    whatever it answers.  When the answer is an error result, the text of
    its [message] (or "Failed to book event") is classified by substring
    tests taken in this order: "500" together with "database" in the
    lower-cased text gives 503; else "404" gives 404; else "401" or "403"
    gives 401; else "Invalid time slot" gives 400 with a fixed detail; any
    other text gives 400 with the text itself as detail. *)
Theorem book_event_error_classification cal_api event (issued : list call) :
  (book_event cal_api event issued).2
    = (issued ++ [book_event_call event])%list ∧
  ∀ booking_result,
    cal_api (List.length issued) (book_event_call event) = inr booking_result →
    booking_result !! "status" = Some "error" →
    let error_message :=
      default "Failed to book event" (booking_result !! "message") in
    let server := occurs "500" error_message ∧
                  occurs "database" (lower error_message) in
    let missing := occurs "404" error_message in
    let auth := occurs "401" error_message ∨ occurs "403" error_message in
    let slot := occurs "Invalid time slot" error_message in
    ∃ e, (book_event cal_api event issued).1 = Raise e ∧
      (server → e = mkHTTPException 503
         "Calendar service is temporarily unavailable. Please try again later.") ∧
      (¬ server → missing → e = mkHTTPException 404
         "The requested event type could not be found.") ∧
      (¬ server → ¬ missing → auth → e = mkHTTPException 401
         "Authentication error with calendar service.") ∧
      (¬ server → ¬ missing → ¬ auth → slot → e = mkHTTPException 400
         "The requested time slot is not available.") ∧
      (¬ server → ¬ missing → ¬ auth → ¬ slot →
         e = mkHTTPException 400 error_message).
Proof.
  rewrite book_event_run. split; [done |].
  intros booking_result -> Hstatus. cbv zeta.
  rewrite decide_True by done. simpl.
  set (m := default "Failed to book event" (booking_result !! "message")).
  eexists. split; [done |]. unfold booking_error.
  destruct (contains "500" m) eqn:H500;
    destruct (contains "database" (lower m)) eqn:Hdb;
    destruct (contains "404" m) eqn:H404;
    destruct (contains "401" m) eqn:H401;
    destruct (contains "403" m) eqn:H403;
    destruct (contains "Invalid time slot" m) eqn:Hslot;
    simpl;
    repeat match goal with
           | H : contains _ _ = true |- _ => apply contains_occurs in H
           | H : contains _ _ = false |- _ => apply contains_not_occurs in H
           end;
    repeat split; intros; try done; tauto.
Qed.

(** Texts from the tests: a host conflict and a wrong duration are not
    told apart from any other unclassified text. *)
Example booking_error_unclassified :
  booking_error "no_available_users_found_error"
    = mkHTTPException 400 "no_available_users_found_error" ∧
  booking_error "Invalid event length"
    = mkHTTPException 400 "Invalid event length" ∧
  booking_error "Invalid time slot"
    = mkHTTPException 400 "The requested time slot is not available." ∧
  booking_error "500 Internal Server Error: Database connection lost"
    = mkHTTPException 503
        "Calendar service is temporarily unavailable. Please try again later." ∧
  booking_error "502 Bad Gateway" = mkHTTPException 400 "502 Bad Gateway".
Proof. by vm_compute. Qed.

(** C1, as stated, fails: an authentication failure of the remote call is
    answered with 401 Unauthorized, not with a service-unavailable
    outcome, and a host conflict ("no available users") is answered with
    the 400 of an invalid request, not with a conflict; the call is issued
    once in both cases. *)
Lemma book_event_auth_failure_is_401 :
  book_event (Samples.failing_calendar "API error: 401 Unauthorized")
    Samples.booking []
    = (Raise (mkHTTPException HTTP_401_UNAUTHORIZED
                "Authentication error with calendar service."),
       [book_event_call Samples.booking]) ∧
  outcome_of_status HTTP_401_UNAUTHORIZED ≠ Some ServiceUnavailable ∧
  book_event (Samples.failing_calendar "no_available_users_found_error")
    Samples.booking []
    = (Raise (mkHTTPException HTTP_400_BAD_REQUEST
                "no_available_users_found_error"),
       [book_event_call Samples.booking]) ∧
  outcome_of_status HTTP_400_BAD_REQUEST ≠ Some Conflict.
Proof. repeat split; by vm_compute. Qed.

End Calendar_claims.

(** ** The client service layer *)

Section ApiService_claims.
Import ApiService.

(** The request [send_message] issues. *)
Lemma send_message_sent cfg http message user_email conversation_id w :
  ∃ r, sent (send_message cfg http message user_email conversation_id w).2
         = (sent w ++ [r])%list ∧
       meth r = POST ∧ url r = API_BASE_URL cfg +:+ "/chat" ∧
       timeout r = Some 30%Z.
Proof.
  unfold send_message, mbind, ST_bind, mret, ST_ret, write_log, perform. simpl.
  eexists. split.
  - destruct (http _ _) as [e|resp]; simpl.
    + destruct (cls e); reflexivity.
    + destruct (raise_for_status resp) as [e|]; simpl.
      * destruct (cls e); reflexivity.
      * destruct (body resp) as [e|v]; [destruct (cls e) |]; reflexivity.
  - done.
Qed.

Lemma get_conversation_messages_sent cfg http conversation_id w :
  ∃ r, sent (get_conversation_messages cfg http conversation_id w).2
         = (sent w ++ [r])%list ∧
       meth r = GET ∧ timeout r = Some 30%Z.
Proof.
  unfold get_conversation_messages, mbind, ST_bind, mret, ST_ret, write_log,
    perform. simpl.
  eexists. split.
  - destruct (http _ _) as [e|resp]; simpl.
    + destruct (cls e); reflexivity.
    + destruct (raise_for_status resp) as [e|]; simpl.
      * destruct (cls e); reflexivity.
      * destruct (body resp) as [e|v]; [destruct (cls e) |]; reflexivity.
  - done.
Qed.

(** The result of the [try] block decides the value returned. *)
Lemma send_message_result cfg http message user_email conversation_id w r :
  sent (send_message cfg http message user_email conversation_id w).2
    = (sent w ++ [r])%list →
  (send_message cfg http message user_email conversation_id w).1 =
  match
    match http (List.length (sent w)) r with
    | inl e => inl e
    | inr resp => match raise_for_status resp with
                  | Some e => inl e
                  | None => body resp
                  end
    end
  with
  | inr v => inr v
  | inl e => match cls e with
             | BaseExceptionOnly => inl e
             | _ => inr (JDict (<["error" := text e]> ∅))
             end
  end.
Proof.
  unfold send_message, mbind, ST_bind, mret, ST_ret, write_log, perform. simpl.
  set (q := mkRequest POST _ _ _ _). intros Hr.
  assert (r = q) as ->.
  { destruct (http _ q) as [e|resp]; simpl in Hr.
    - destruct (cls e); simpl in Hr; by simplify_list_eq.
    - destruct (raise_for_status resp) as [e|]; simpl in Hr.
      + destruct (cls e); simpl in Hr; by simplify_list_eq.
      + destruct (body resp) as [e|v]; [destruct (cls e) |];
          simpl in Hr; by simplify_list_eq. }
  destruct (http _ q) as [e|resp]; simpl.
  - by destruct (cls e).
  - destruct (raise_for_status resp) as [e|]; simpl.
    + by destruct (cls e).
    + destruct (body resp) as [e|v]; [by destruct (cls e) | done].
Qed.

Lemma get_conversation_messages_result cfg http conversation_id w r :
  sent (get_conversation_messages cfg http conversation_id w).2
    = (sent w ++ [r])%list →
  (get_conversation_messages cfg http conversation_id w).1 =
  match
    match http (List.length (sent w)) r with
    | inl e => inl e
    | inr resp => match raise_for_status resp with
                  | Some e => inl e
                  | None => body resp
                  end
    end
  with
  | inr v => inr v
  | inl e => match cls e with
             | BaseExceptionOnly => inl e
             | _ => inr (JDict (<["error" := text e]> ∅))
             end
  end.
Proof.
  unfold get_conversation_messages, mbind, ST_bind, mret, ST_ret, write_log,
    perform. simpl.
  set (q := mkRequest GET _ _ _ _). intros Hr.
  assert (r = q) as ->.
  { destruct (http _ q) as [e|resp]; simpl in Hr.
    - destruct (cls e); simpl in Hr; by simplify_list_eq.
    - destruct (raise_for_status resp) as [e|]; simpl in Hr.
      + destruct (cls e); simpl in Hr; by simplify_list_eq.
      + destruct (body resp) as [e|v]; [destruct (cls e) |];
          simpl in Hr; by simplify_list_eq. }
  destruct (http _ q) as [e|resp]; simpl.
  - by destruct (cls e).
  - destruct (raise_for_status resp) as [e|]; simpl.
    + by destruct (cls e).
    + destruct (body resp) as [e|v]; [by destruct (cls e) | done].
Qed.

(** A failed request leaves an exception as the result of the [try]
    block. *)
Lemma request_fails_attempt http n r e :
  request_fails http n r e →
  match http n r with
  | inl e => inl e
  | inr resp => match raise_for_status resp with
                | Some e => inl e
                | None => body resp
                end
  end = inl e.
Proof.
  intros [e' H | resp e' H1 H2 | resp e' H1 H2 H3].
  - by rewrite H.
  - by rewrite H1, H2.
  - by rewrite H1, H2.
Qed.

(** With writes to [debug.log] that succeed, [send_message] and
    [get_conversation_messages] each issue one HTTP request, with
    [timeout=30].  Whenever that request fails with an [Exception] (the
    transport raises, a timeout included; the status is 4xx or 5xx; the body
    does not decode), the function returns the dict [{"error": str(e)}]; an
    exception leaves either function only if it is not an [Exception] at
    all. *)
Lemma client_calls_reliable_disk cfg http message user_email
    conversation_id cid w :
  let s := send_message cfg http message user_email conversation_id w in
  let g := get_conversation_messages cfg http cid w in
  (∃ r, sent s.2 = (sent w ++ [r])%list ∧ meth r = POST ∧ timeout r = Some 30%Z ∧
        ∀ e, request_fails http (List.length (sent w)) r e →
             cls e ≠ BaseExceptionOnly →
             s.1 = inr (JDict (<["error" := text e]> ∅))) ∧
  (∃ r, sent g.2 = (sent w ++ [r])%list ∧ meth r = GET ∧ timeout r = Some 30%Z ∧
        ∀ e, request_fails http (List.length (sent w)) r e →
             cls e ≠ BaseExceptionOnly →
             g.1 = inr (JDict (<["error" := text e]> ∅))) ∧
  (∀ e, s.1 = inl e → cls e = BaseExceptionOnly) ∧
  (∀ e, g.1 = inl e → cls e = BaseExceptionOnly).
Proof.
  intros s g. subst s g.
  destruct (send_message_sent cfg http message user_email conversation_id w)
    as (r1 & Hs1 & Hm1 & _ & Ht1).
  destruct (get_conversation_messages_sent cfg http cid w)
    as (r2 & Hs2 & Hm2 & Ht2).
  rewrite (send_message_result _ _ _ _ _ _ _ Hs1).
  rewrite (get_conversation_messages_result _ _ _ _ _ Hs2).
  split; [| split; [| split]].
  - exists r1. do 3 (split; [done |]). intros e Hf Hc.
    rewrite (request_fails_attempt _ _ _ _ Hf). by destruct (cls e).
  - exists r2. do 3 (split; [done |]). intros e Hf Hc.
    rewrite (request_fails_attempt _ _ _ _ Hf). by destruct (cls e).
  - intros e. destruct (http _ r1) as [e'|resp].
    + destruct (cls e') eqn:Hc; intros [= <-]; done.
    + destruct (raise_for_status resp) as [e'|].
      * destruct (cls e') eqn:Hc; intros [= <-]; done.
      * destruct (body resp) as [e'|v]; [| done].
        destruct (cls e') eqn:Hc; intros [= <-]; done.
  - intros e. destruct (http _ r2) as [e'|resp].
    + destruct (cls e') eqn:Hc; intros [= <-]; done.
    + destruct (raise_for_status resp) as [e'|].
      * destruct (cls e') eqn:Hc; intros [= <-]; done.
      * destruct (body resp) as [e'|v]; [| done].
        destruct (cls e') eqn:Hc; intros [= <-]; done.
Qed.

Ltac io_unfold :=
  unfold send_message_io, get_conversation_messages_io, send_message,
    get_conversation_messages, try_except, write_log_io, write_log,
    perform_io, perform, raise_for_status_io, json_io, raise,
    mbind, IO_bind, ST_bind, mret, IO_ret, ST_ret.

(** On a disk where every write succeeds the two models of each function
    are the same. *)
Lemma send_message_io_reliable cfg http disk message user_email
    conversation_id w :
  (∀ n entry, disk n entry = None) →
  send_message_io cfg http disk message user_email conversation_id w
  = send_message cfg http message user_email conversation_id w.
Proof.
  intros Hd. io_unfold. simpl. rewrite !Hd.
  destruct (http _ _) as [e|resp]; simpl.
  - destruct (cls e); by rewrite ?Hd.
  - rewrite Hd. destruct (raise_for_status resp) as [e|]; simpl.
    + destruct (cls e); by rewrite ?Hd.
    + destruct (body resp) as [e|v]; [| done].
      destruct (cls e); by rewrite ?Hd.
Qed.

Lemma get_conversation_messages_io_reliable cfg http disk conversation_id w :
  (∀ n entry, disk n entry = None) →
  get_conversation_messages_io cfg http disk conversation_id w
  = get_conversation_messages cfg http conversation_id w.
Proof.
  intros Hd. io_unfold. simpl. rewrite !Hd.
  destruct (http _ _) as [e|resp]; simpl.
  - destruct (cls e); by rewrite ?Hd.
  - destruct (raise_for_status resp) as [e|]; simpl.
    + destruct (cls e); by rewrite ?Hd.
    + destruct (body resp) as [e|v]; [| done].
      destruct (cls e); by rewrite ?Hd.
Qed.

(** What leaves [send_message] is no [Exception], or the [OSError] of a
    write to [debug.log]. *)
Lemma send_message_io_escapes cfg http disk message user_email
    conversation_id w e :
  (send_message_io cfg http disk message user_email conversation_id w).1
    = inl e →
  cls e = BaseExceptionOnly ∨
  ∃ n entry, disk n entry = Some (text e) ∧ e = os_error (text e).
Proof.
  io_unfold. simpl.
  repeat (case_match; simplify_eq/=); intros; simplify_eq/=;
    try (by left); right; eauto.
Qed.

Lemma get_conversation_messages_io_escapes cfg http disk conversation_id w e :
  (get_conversation_messages_io cfg http disk conversation_id w).1 = inl e →
  cls e = BaseExceptionOnly ∨
  ∃ n entry, disk n entry = Some (text e) ∧ e = os_error (text e).
Proof.
  io_unfold. simpl.
  repeat (case_match; simplify_eq/=); intros; simplify_eq/=;
    try (by left); right; eauto.
Qed.

(** At most one request is issued, with [timeout=30]. *)
Lemma send_message_io_sent cfg http disk message user_email conversation_id w :
  let s := send_message_io cfg http disk message user_email conversation_id w in
  sent s.2 = sent w ∨
  ∃ r, sent s.2 = (sent w ++ [r])%list ∧ meth r = POST ∧
       url r = API_BASE_URL cfg +:+ "/chat" ∧ timeout r = Some 30%Z.
Proof.
  io_unfold. simpl.
  repeat (case_match; simplify_eq/=);
    try (by left); right; eexists; (split; [reflexivity | done]).
Qed.

Lemma get_conversation_messages_io_sent cfg http disk conversation_id w :
  let g := get_conversation_messages_io cfg http disk conversation_id w in
  sent g.2 = sent w ∨
  ∃ r, sent g.2 = (sent w ++ [r])%list ∧ meth r = GET ∧
       timeout r = Some 30%Z.
Proof.
  io_unfold. simpl.
  repeat (case_match; simplify_eq/=);
    try (by left); right; eexists; (split; [reflexivity | done]).
Qed.

(** C8.  [send_message] and [get_conversation_messages] each issue at most
    one HTTP request, with [timeout=30].  Provided the writes to [debug.log]
    succeed, each issues exactly one, and whenever that request fails with
    an [Exception] (the transport raises, a timeout included; the status is
    4xx or 5xx; the body does not decode) the function returns the dict
    [{"error": str(e)}], and an exception leaves only if it is not an
    [Exception] at all.  On any disk, an exception that leaves either
    function is not an [Exception], or it is the [OSError] of a write to
    [debug.log]. *)
Theorem client_calls_bounded_and_caught cfg http disk message user_email
    conversation_id cid w :
  let s := send_message_io cfg http disk message user_email conversation_id w in
  let g := get_conversation_messages_io cfg http disk cid w in
  (sent s.2 = sent w ∨
   ∃ r, sent s.2 = (sent w ++ [r])%list ∧ meth r = POST ∧
        timeout r = Some 30%Z) ∧
  (sent g.2 = sent w ∨
   ∃ r, sent g.2 = (sent w ++ [r])%list ∧ meth r = GET ∧
        timeout r = Some 30%Z) ∧
  ((∀ n entry, disk n entry = None) →
   (∃ r, sent s.2 = (sent w ++ [r])%list ∧ meth r = POST ∧
         timeout r = Some 30%Z ∧
         ∀ e, request_fails http (List.length (sent w)) r e →
              cls e ≠ BaseExceptionOnly →
              s.1 = inr (JDict (<["error" := text e]> ∅))) ∧
   (∃ r, sent g.2 = (sent w ++ [r])%list ∧ meth r = GET ∧
         timeout r = Some 30%Z ∧
         ∀ e, request_fails http (List.length (sent w)) r e →
              cls e ≠ BaseExceptionOnly →
              g.1 = inr (JDict (<["error" := text e]> ∅))) ∧
   (∀ e, s.1 = inl e → cls e = BaseExceptionOnly) ∧
   (∀ e, g.1 = inl e → cls e = BaseExceptionOnly)) ∧
  (∀ e, s.1 = inl e →
        cls e = BaseExceptionOnly ∨
        ∃ n entry, disk n entry = Some (text e) ∧ e = os_error (text e)) ∧
  (∀ e, g.1 = inl e →
        cls e = BaseExceptionOnly ∨
        ∃ n entry, disk n entry = Some (text e) ∧ e = os_error (text e)).
Proof.
  intros s g. subst s g.
  split; [| split; [| split; [| split]]].
  - destruct (send_message_io_sent cfg http disk message user_email
                conversation_id w) as [H | (r & H & Hm & _ & Ht)];
      [by left | right; by exists r].
  - apply get_conversation_messages_io_sent.
  - intros Hd.
    rewrite (send_message_io_reliable _ _ _ _ _ _ _ Hd).
    rewrite (get_conversation_messages_io_reliable _ _ _ _ _ Hd).
    apply client_calls_reliable_disk.
  - apply send_message_io_escapes.
  - apply get_conversation_messages_io_escapes.
Qed.

(** C8, as far as "no exception escapes" goes: when the disk fills up
    after the first write to [debug.log], a request that times out ends in
    the [OSError] of the write in the [except] clause, and when [debug.log]
    cannot be opened the [OSError] leaves before any request is sent. *)
Lemma client_log_failure_escapes :
  request_fails Samples.timing_out 0
    (mkRequest GET "http://localhost:8000/api/conversations/c1/messages" None
       (HEADERS Samples.config) (Some 30%Z))
    (mkExn RequestException "Read timed out.") ∧
  (send_message_io Samples.config Samples.timing_out Samples.filling_up
     "hi" "user@example.com" None Samples.world0).1
    = inl (os_error "[Errno 28] No space left on device") ∧
  (get_conversation_messages_io Samples.config Samples.timing_out
     Samples.filling_up "c1" Samples.world0).1
    = inl (os_error "[Errno 28] No space left on device") ∧
  send_message_io Samples.config Samples.timing_out Samples.unwritable
    "hi" "user@example.com" None Samples.world0
    = (inl (os_error "[Errno 13] Permission denied: 'debug.log'"),
       Samples.world0) ∧
  get_conversation_messages_io Samples.config Samples.timing_out
    Samples.unwritable "c1" Samples.world0
    = (inl (os_error "[Errno 13] Permission denied: 'debug.log'"),
       Samples.world0).
Proof.
  split; [by apply Fails_transport |]. by vm_compute.
Qed.

(** A failed write inside the [try] of [send_message] is caught like a
    failed request. *)
Example send_message_log_failure_caught :
  (send_message_io Samples.config (Samples.answering (JList []))
     (λ _ entry, match entry with
                 | ResponseStatus _ _ => Some "[Errno 28] No space left on device"
                 | _ => None
                 end)
     "hi" "user@example.com" None Samples.world0).1
    = inr (JDict (<["error" := "[Errno 28] No space left on device"]> ∅)).
Proof. by vm_compute. Qed.

(** On a network that times out both functions hand back the error dict. *)
Example client_timeout :
  (send_message Samples.config Samples.timing_out "hi" "user@example.com" None
     Samples.world0).1
    = inr (JDict (<["error" := "Read timed out."]> ∅)) ∧
  (get_conversation_messages Samples.config Samples.timing_out "c1"
     Samples.world0).1
    = inr (JDict (<["error" := "Read timed out."]> ∅)).
Proof. by vm_compute. Qed.

End ApiService_claims.

(** ** The booking orchestrator *)

Section Orchestrator_claims.
Import Orchestrator.

#[local] Instance nearer_trans requested : Transitive (nearer requested).
Proof. unfold nearer. intros a b c. lia. Qed.

#[local] Instance nearer_total requested : Total (nearer requested).
Proof. unfold nearer. intros a b. lia. Qed.

Lemma is_instant_available_false (requested : Z) (slots : list SlotCandidate) :
  is_instant_available requested slots = false ↔
  ∀ s, s ∈ slots → start_instant s ≠ requested.
Proof.
  unfold is_instant_available. induction slots as [|x slots IH]; simpl.
  - split; [| done]. intros _ s Hs. by apply elem_of_nil in Hs.
  - rewrite orb_false_iff, IH, Z.eqb_neq. split.
    + intros [Hx Hr] s [-> | Hs]%elem_of_cons; auto.
    + intros H. split; [apply H; left | intros s Hs; apply H; by right].
Qed.

(** The alternatives: the first three of the resolution sorted by
    distance. *)
Lemma alternatives_spec (requested : Z) (slots : list SlotCandidate) :
  List.length (alternatives requested slots) = (3 `min` List.length slots)%nat ∧
  Sorted (nearer requested) (alternatives requested slots) ∧
  ∃ rest, (alternatives requested slots ++ rest)%list ≡ₚ slots ∧
          ∀ a b, a ∈ alternatives requested slots → b ∈ rest →
                 (distance requested a ≤ distance requested b)%Z.
Proof.
  unfold alternatives.
  pose proof (StronglySorted_merge_sort (nearer requested) slots) as Hs.
  pose proof (merge_sort_Permutation (nearer requested) slots) as Hp.
  set (sorted := merge_sort (nearer requested) slots) in *.
  split; [| split].
  - rewrite length_take. by rewrite (Permutation_length Hp).
  - apply StronglySorted_Sorted.
    rewrite <- (take_drop 3 sorted) in Hs.
    by apply StronglySorted_app_1_l in Hs.
  - exists (drop 3 sorted). split; [by rewrite take_drop |].
    intros a b Ha Hb. rewrite <- (take_drop 3 sorted) in Hs.
    exact (StronglySorted_app_1_elem_of _ _ _ _ _ Hs Ha Hb).
Qed.

(** C2 (amended).  With [skip_availability_check] unset, [book] first
    resolves availability for the date of the requested instant.  If the
    instant is absent from the resolved sequence, the outcome is a
    [Conflict] for that instant and the remote booking call is not issued.
    The [Conflict] carries min(3, n) alternatives, n being the number of
    candidates resolved: at most three, at least one when the resolution is
    not empty, none when it is empty.  They are candidates of that same
    resolution, in ascending order of absolute time difference to the
    requested instant, and no candidate left out is nearer than one
    chosen. *)
Theorem book_unavailable_conflict sv event_type_id (start_instant_utc : Z)
    attendee_name attendee_email reason (issued : list call) :
  let slots := resolve sv (List.length issued) event_type_id
                 (date_of start_instant_utc) in
  (∀ s, s ∈ slots → start_instant s ≠ start_instant_utc) →
  ∃ why alts,
    book sv event_type_id start_instant_utc attendee_name attendee_email
      reason false issued
    = (Conflict start_instant_utc why alts,
       (issued ++ [Resolve event_type_id (date_of start_instant_utc)])%list) ∧
    List.length alts = (3 `min` List.length slots)%nat ∧
    (List.length alts ≤ 3)%nat ∧
    (slots ≠ [] → (1 ≤ List.length alts)%nat) ∧
    Sorted (nearer start_instant_utc) alts ∧
    ∃ rest, (alts ++ rest)%list ≡ₚ slots ∧
            ∀ a b, a ∈ alts → b ∈ rest →
                   (distance start_instant_utc a ≤ distance start_instant_utc b)%Z.
Proof.
  intros slots Habs. apply is_instant_available_false in Habs.
  destruct (alternatives_spec start_instant_utc slots) as (Hlen & Hsorted & Hnear).
  eexists _, (alternatives start_instant_utc slots). split.
  - unfold book, mbind, ST_bind, mret, ST_ret. fold slots. by rewrite Habs.
  - split; [done |]. split; [lia |]. split; [| done].
    intros Hne. destruct slots; [done |]. simpl in Hlen. lia.
Qed.

Lemma book_unavailable_conflict_witness :
  ∃ why,
    book (Samples.services
            [Samples.slot 32400; Samples.slot 36000; Samples.slot 54000;
             Samples.slot 55800; Samples.slot 57600])
      "1" 50400 "Jane" "jane@example.com" None false []
    = (Conflict 50400 why
         [Samples.slot 54000; Samples.slot 55800; Samples.slot 57600],
       [Resolve "1" 0]).
Proof.
  destruct (book_unavailable_conflict
              (Samples.services
                 [Samples.slot 32400; Samples.slot 36000; Samples.slot 54000;
                  Samples.slot 55800; Samples.slot 57600])
              "1" 50400 "Jane" "jane@example.com" None [])
    as (why & alts & H & _).
  - intros s Hs. vm_compute. intros E.
    repeat (apply elem_of_cons in Hs as [-> | Hs]; [discriminate E |]).
    by apply elem_of_nil in Hs.
  - exists why. rewrite H. vm_compute in H. by injection H as _ <-.
Defined.

(** C2, as stated, fails when the resolution is empty: the outcome is a
    [Conflict] that carries no alternative. *)
Lemma book_empty_resolution_no_alternative :
  ∃ why,
    book (Samples.services []) "1" 50400 "Jane" "jane@example.com" None false []
      = (Conflict 50400 why [], [Resolve "1" 0]) ∧
    ¬ (1 ≤ List.length ([] : list SlotCandidate))%nat.
Proof. eexists. split; [by vm_compute | simpl; lia]. Qed.

(** When the instant is present, or the check is skipped, the remote
    booking call is issued once and decides the outcome. *)
Lemma book_available_remote sv event_type_id (start_instant_utc : Z)
    attendee_name attendee_email reason (issued : list call) :
  is_instant_available start_instant_utc
    (resolve sv (List.length issued) event_type_id (date_of start_instant_utc))
    = true →
  (book sv event_type_id start_instant_utc attendee_name attendee_email
     reason false issued).2
  = (issued ++ [Resolve event_type_id (date_of start_instant_utc);
                Remote_book event_type_id start_instant_utc attendee_name
                  attendee_email reason])%list ∧
  (book sv event_type_id start_instant_utc attendee_name attendee_email
     reason true issued).2
  = (issued ++ [Remote_book event_type_id start_instant_utc attendee_name
                  attendee_email reason])%list.
Proof.
  intros H. unfold book, mbind, ST_bind, mret, ST_ret. rewrite H.
  split; [| done]. simpl. by rewrite <- app_assoc.
Qed.

End Orchestrator_claims.


(** * Further properties of the code *)

(** ** The conversation store *)

Section Store_more.
Import App.

Lemma length_append (a b : string) :
  String.length (a +:+ b) = (String.length a + String.length b)%nat.
Proof. induction a as [|x a IH]; simpl; [done | by rewrite IH]. Qed.

Lemma hex_length (k : nat) (n : N) : String.length (Uuid.hex k n) = k.
Proof.
  revert n. induction k as [|k IH]; intros n; simpl; [done |].
  rewrite length_append, IH. simpl. lia.
Qed.

Lemma uuid_str_length (u : N) : String.length (Uuid.str u) = 36%nat.
Proof.
  unfold Uuid.str. rewrite !length_append, !hex_length. reflexivity.
Qed.

(** X1.  In every store the application can hold, each conversation is filed
    under its own [id], and that key is the 36-character text of a uuid. *)
Theorem reachable_keys_are_ids (conversations : Store) k c :
  reachable conversations → conversations !! k = Some c →
  Conversation.id c = k ∧ String.length k = 36%nat ∧ ∃ u, k = Uuid.str u.
Proof.
  intros Hr Hk. destruct (reachable_store_ok _ Hr _ _ Hk) as [Hid [u ->]].
  split; [done |]. split; [apply uuid_str_length | by exists u].
Qed.

Lemma sample_store_reachable :
  reachable (chat (Samples.env Samples.agent_ok) Samples.first_message ∅).2.
Proof. eapply Reach_step; [apply Reach_start | apply Step_chat]. Qed.

Lemma reachable_keys_are_ids_witness :
  ∃ c, (chat (Samples.env Samples.agent_ok) Samples.first_message ∅).2
         !! "550e8400-e29b-41d4-a716-446655440000" = Some c ∧
       Conversation.id c = "550e8400-e29b-41d4-a716-446655440000".
Proof.
  eexists. split; [reflexivity |].
  eapply proj1, reachable_keys_are_ids; [apply sample_store_reachable |].
  reflexivity.
Defined.

(** The conversation an existing identifier names. *)
Lemma existing_lookup (conversations : Store) conversation_id cid c :
  existing conversations conversation_id = Some (cid, c) →
  conversation_id = Some cid ∧ conversations !! cid = Some c.
Proof.
  unfold existing. destruct conversation_id as [x|]; [| done].
  destruct (String.eqb x ""); [done |].
  destruct (conversations !! x) eqn:Hx; [| done]. by intros [= <- <-].
Qed.

(** X2.  [chat] only ever adds: whether the agent call succeeds or raises,
    every conversation stored before is still stored under its key, with the
    same [id], [user_email] and [created_at], and its former transcript is a
    prefix of the new one.  (The uuid drawn is taken to be fresh.) *)
Theorem chat_only_adds w message (conversations : Store) k c :
  conversations !! Uuid.str (conversation_uuid w) = None →
  conversations !! k = Some c →
  ∃ c', (chat w message conversations).2 !! k = Some c' ∧
        Conversation.id c' = Conversation.id c ∧
        Conversation.user_email c' = Conversation.user_email c ∧
        Conversation.created_at c' = Conversation.created_at c ∧
        Conversation.messages c `prefix_of` Conversation.messages c'.
Proof.
  intros Hfresh Hk. rewrite chat_run. cbv zeta.
  destruct (existing conversations _) as [[cid c0]|] eqn:He.
  - apply existing_lookup in He as [_ Hc0].
    destruct (decide (cid = k)) as [-> | Hne].
    + assert (c0 = c) as -> by congruence.
      destruct (process_message w _ _) as [[e|response e]|result]; simpl;
        rewrite lookup_insert_eq;
        eexists; (split; [done |]); simpl; repeat split; try done.
      * by apply prefix_app_r.
      * rewrite <- app_assoc. by apply prefix_app_r.
      * rewrite <- app_assoc. by apply prefix_app_r.
    + destruct (process_message w _ _) as [[e|response e]|result]; simpl;
        rewrite lookup_insert_ne by done; by exists c.
  - assert (Uuid.str (conversation_uuid w) ≠ k) as Hne by congruence.
    destruct (process_message w _ _) as [[e|response e]|result]; simpl;
      rewrite lookup_insert_ne by done; by exists c.
Qed.

Lemma chat_only_adds_witness :
  ∃ c c',
    Samples.store1 !! "550e8400-e29b-41d4-a716-446655440000" = Some c ∧
    (chat (Samples.env2 Samples.agent_down) Samples.second_message
       Samples.store1).2 !! "550e8400-e29b-41d4-a716-446655440000" = Some c' ∧
    Conversation.messages c `prefix_of` Conversation.messages c'.
Proof.
  eexists. 
  destruct (chat_only_adds (Samples.env2 Samples.agent_down)
              Samples.second_message Samples.store1
              "550e8400-e29b-41d4-a716-446655440000" _ eq_refl eq_refl)
    as (c' & H1 & _ & _ & _ & H5).
  exists c'. split; [reflexivity |]. split; [exact H1 | exact H5].
Defined.



(** A result without [action_taken] leaves both messages in the store. *)
Example chat_late_failure_stores_reply :
  ∃ c, (chat (Samples.env2 Samples.agent_without_action)
          Samples.second_message Samples.store1).2
         !! "550e8400-e29b-41d4-a716-446655440000" = Some c ∧
       Message.role <$> Conversation.messages c
         = ["user"; "assistant"; "user"; "assistant"].
Proof. eexists. split; [by vm_compute | reflexivity]. Qed.

(** *** The shape of a transcript *)

Lemma replies_follow_user_nil : replies_follow_user [].
Proof.
  split.
  - intros m Hm. by apply elem_of_nil in Hm.
  - intros i m Hi. by rewrite lookup_nil in Hi.
Qed.

Lemma replies_follow_user_snoc_user (l : list Message.t) u :
  replies_follow_user l → Message.role u = "user" →
  replies_follow_user (l ++ [u]).
Proof.
  intros [Hroles Hprev] Hu. split.
  - intros m [Hm | Hm%list_elem_of_singleton]%elem_of_app; [by apply Hroles |].
    subst. by left.
  - intros i m Hi Hm.
    destruct (decide (i < List.length l)%nat) as [Hlt | Hge].
    + rewrite lookup_app_l in Hi by done.
      destruct (Hprev i m Hi Hm) as (j & m' & -> & Hj & Hm').
      exists j, m'. split; [done |]. split; [| done].
      rewrite lookup_app_l; [done |]. lia.
    + rewrite lookup_app_r in Hi by lia.
      destruct (i - List.length l)%nat as [|n] eqn:Hn; simpl in Hi; [| done].
      injection Hi as <-. rewrite Hu in Hm. discriminate.
Qed.

Lemma replies_follow_user_snoc_pair (l : list Message.t) u a :
  replies_follow_user l → Message.role u = "user" →
  Message.role a = "assistant" →
  replies_follow_user ((l ++ [u]) ++ [a]).
Proof.
  intros Hl Hu Ha.
  destruct (replies_follow_user_snoc_user l u Hl Hu) as [Hroles Hprev].
  split.
  - intros m [Hm | Hm%list_elem_of_singleton]%elem_of_app; [by apply Hroles |].
    subst. by right.
  - intros i m Hi Hm.
    destruct (decide (i < List.length (l ++ [u]))%nat) as [Hlt | Hge].
    + rewrite lookup_app_l in Hi by done.
      destruct (Hprev i m Hi Hm) as (j & m' & -> & Hj & Hm').
      exists j, m'. split; [done |]. split; [| done].
      rewrite lookup_app_l; [done |]. lia.
    + rewrite lookup_app_r in Hi by lia.
      destruct (i - List.length (l ++ [u]))%nat as [|n] eqn:Hn;
        simpl in Hi; [| done].
      rewrite length_app in Hn, Hge. simpl in Hn, Hge.
      exists (List.length l), u. split; [lia |]. split; [| done].
      rewrite lookup_app_l by (rewrite length_app; simpl; lia).
      rewrite lookup_app_r by lia. by rewrite Nat.sub_diag.
Qed.

Lemma chat_transcripts w message (conversations : Store) :
  (∀ k c, conversations !! k = Some c →
          replies_follow_user (Conversation.messages c)) →
  ∀ k c, (chat w message conversations).2 !! k = Some c →
         replies_follow_user (Conversation.messages c).
Proof.
  intros Hok k c. rewrite chat_run. cbv zeta.
  set (target := match existing conversations _ with
                 | Some (cid, c0) => _ | None => _ end).
  assert (replies_follow_user (Conversation.messages target.2)) as Ht.
  { subst target. destruct (existing conversations _) as [[cid c0]|] eqn:Hx; simpl.
    - apply existing_lookup in Hx as [_ Hc0]. exact (Hok _ _ Hc0).
    - apply replies_follow_user_nil. }
  destruct (process_message w _ _) as [[e|response e]|result]; simpl;
    rewrite lookup_insert;
    case_decide; try apply Hok; intros [= <-]; simpl.
  - by apply replies_follow_user_snoc_user.
  - by apply replies_follow_user_snoc_pair.
  - by apply replies_follow_user_snoc_pair.
Qed.

(** X4.  When the requests run one after the other (no request runs while
    a [chat] is suspended at line 285), every transcript the application
    holds has only messages of role "user" or "assistant", and each message
    of the assistant stands right after a message of the user; in
    particular no transcript begins with the assistant.  This holds also
    after requests in which lines 285-305 raise. *)
Theorem reachable_transcripts (conversations : Store) k c :
  reachable conversations → conversations !! k = Some c →
  replies_follow_user (Conversation.messages c).
Proof.
  intros Hr. revert k c.
  induction Hr as [|s s' _ IH Hstep]; intros k c.
  - by rewrite lookup_empty.
  - destruct Hstep.
    + by apply chat_transcripts.
    + unfold create_conversation. simpl. rewrite lookup_insert.
      case_decide; [| apply IH]. intros [= <-]. apply replies_follow_user_nil.
    + unfold delete_conversation. destruct (s !! conversation_id); simpl; [| apply IH].
      rewrite lookup_delete. case_decide; [done | apply IH].
Qed.

Lemma reachable_transcripts_witness :
  ∃ c, Samples.store1 !! "550e8400-e29b-41d4-a716-446655440000" = Some c ∧
       replies_follow_user (Conversation.messages c).
Proof.
  eexists. split; [reflexivity |].
  apply (reachable_transcripts Samples.store1
           "550e8400-e29b-41d4-a716-446655440000" _ sample_store_reachable).
  reflexivity.
Defined.

(** X5.  [create_conversation] files an empty conversation under the
    identifier it returns: read back with that identifier, [get_conversation]
    reports the same owner and a message count of 0 and
    [get_conversation_messages] returns the empty list; no other key of the
    store changes. *)
Theorem create_then_read uuid4 now1 now2 user_email (conversations : Store) :
  ∃ sm,
    (create_conversation uuid4 now1 now2 user_email conversations).1 = Return sm ∧
    Created.id sm = Uuid.str uuid4 ∧
    Created.user_email sm = user_email ∧
    Created.created_at sm = now1 ∧
    Created.message_count sm = 0%nat ∧
    let conversations' :=
      (create_conversation uuid4 now1 now2 user_email conversations).2 in
    get_conversation (Created.id sm) conversations'
      = (Return (Summary.mk (Uuid.str uuid4) user_email now1 now2 0),
         conversations') ∧
    get_conversation_messages (Created.id sm) conversations'
      = (Return [], conversations') ∧
    ∀ k, k ≠ Created.id sm → conversations' !! k = conversations !! k.
Proof.
  eexists. split; [reflexivity |]. simpl. do 4 (split; [done |]).
  unfold get_conversation, get_conversation_messages.
  rewrite lookup_insert_eq. do 2 (split; [done |]).
  intros k Hk. by rewrite lookup_insert_ne.
Qed.

(** X6.  [delete_conversation] on a stored identifier confirms the deletion
    and removes that key only; afterwards [get_conversation],
    [get_conversation_messages] and a second [delete_conversation] with the
    same identifier all raise HTTP 404. *)
Theorem delete_then_404 (conversations : Store) (conversation_id : string) c :
  conversations !! conversation_id = Some c →
  let conversations' := delete conversation_id conversations in
  delete_conversation conversation_id conversations
    = (Return ("Conversation " +:+ conversation_id +:+ " deleted"),
       conversations') ∧
  conversations' !! conversation_id = None ∧
  (∀ k, k ≠ conversation_id → conversations' !! k = conversations !! k) ∧
  get_conversation conversation_id conversations'
    = (Raise (mkHTTPException 404 "Conversation not found"), conversations') ∧
  get_conversation_messages conversation_id conversations'
    = (Raise (mkHTTPException 404 "Conversation not found"), conversations') ∧
  delete_conversation conversation_id conversations'
    = (Raise (mkHTTPException 404 "Conversation not found"), conversations').
Proof.
  intros Hc conversations'. subst conversations'.
  unfold delete_conversation, get_conversation, get_conversation_messages.
  rewrite Hc, lookup_delete_eq. do 2 (split; [done |]).
  split; [| done]. intros k Hk. by rewrite lookup_delete_ne.
Qed.

Lemma delete_then_404_witness :
  delete_conversation "550e8400-e29b-41d4-a716-446655440000" Samples.store1
    = (Return "Conversation 550e8400-e29b-41d4-a716-446655440000 deleted",
       delete "550e8400-e29b-41d4-a716-446655440000" Samples.store1).
Proof.
  exact (proj1 (delete_then_404 Samples.store1
                  "550e8400-e29b-41d4-a716-446655440000" _ eq_refl)).
Defined.

(** A non-empty key of the store passes the test of line 265. *)
Lemma existing_key (conversations : Store) (cid : string) c :
  cid ≠ "" → conversations !! cid = Some c →
  existing conversations (Some cid) = Some (cid, c).
Proof.
  intros Hne Hc. unfold existing.
  destruct (String.eqb_spec cid ""); [done | by rewrite Hc].
Qed.

(** X7.  The identifier a successful [chat] returns for a new conversation
    continues that conversation: a second successful [chat] that carries it,
    whatever [user_email] it gives, returns the same identifier and leaves
    the transcript with the four messages in order, user, assistant, user,
    assistant; the two requests together add one key to the store.  (The
    uuid drawn for the conversation is taken to be fresh.) *)
Theorem chat_continues w1 w2 m1 m2 (conversations : Store) resp1 r2 :
  conversations !! Uuid.str (conversation_uuid w1) = None →
  (ChatMessage.conversation_id m1 = None ∨
   ∃ cid, ChatMessage.conversation_id m1 = Some cid ∧
          conversations !! cid = None) →
  (chat w1 m1 conversations).1 = Return resp1 →
  ChatMessage.conversation_id m2 = Some (ChatResponse.conversation_id resp1) →
  process_message w2 (ChatMessage.message m2) (ChatMessage.user_email m2)
    = inr r2 →
  let s1 := (chat w1 m1 conversations).2 in
  ∃ resp2 c u1 a1 u2 a2,
    (chat w2 m2 s1).1 = Return resp2 ∧
    ChatResponse.conversation_id resp2 = ChatResponse.conversation_id resp1 ∧
    ChatResponse.response resp2 = AgentResult.response r2 ∧
    (chat w2 m2 s1).2 !! ChatResponse.conversation_id resp1 = Some c ∧
    Conversation.messages c = [u1; a1; u2; a2] ∧
    Conversation.user_email c = ChatMessage.user_email m1 ∧
    (Message.role u1 = "user" ∧ Message.content u1 = ChatMessage.message m1) ∧
    (Message.role a1 = "assistant" ∧
     Message.content a1 = ChatResponse.response resp1) ∧
    (Message.role u2 = "user" ∧ Message.content u2 = ChatMessage.message m2) ∧
    (Message.role a2 = "assistant" ∧
     Message.content a2 = ChatResponse.response resp2) ∧
    dom (chat w2 m2 s1).2
      = {[ChatResponse.conversation_id resp1]} ∪ dom conversations.
Proof.
  intros Hfresh Habs H1 Hid H2 s1. subst s1.
  rewrite (chat_run w1 m1) in H1 |- *. cbv zeta in H1 |- *.
  rewrite (existing_None _ _ Habs) in H1 |- *. simpl in H1 |- *.
  destruct (process_message w1 _ _) as [[e|response e]|r1]; [done | done |].
  simpl in H1 |- *. injection H1 as <-. simpl in Hid |- *.
  rewrite (chat_run w2 m2). cbv zeta. rewrite Hid, H2.
  erewrite existing_key;
    [| apply uuid_str_nonempty | apply lookup_insert_eq].
  simpl. eexists _, _, _, _, _, _.
  split; [reflexivity |]. do 2 (split; [done |]).
  split; [apply lookup_insert_eq |]. simpl.
  split; [reflexivity |]. do 5 (split; [done |]).
  by rewrite insert_insert_eq, dom_insert_L.
Qed.

Lemma chat_continues_witness :
  ∃ resp2,
    (chat (Samples.env2 Samples.agent_ok) Samples.second_message
       Samples.store1).1 = Return resp2 ∧
    ChatResponse.conversation_id resp2 = "550e8400-e29b-41d4-a716-446655440000".
Proof.
  destruct (chat_continues (Samples.env Samples.agent_ok)
              (Samples.env2 Samples.agent_ok) Samples.first_message
              Samples.second_message ∅ Samples.first_response
              (AgentResult.mk "Hello! How can I help?" None None))
    as (resp2 & c & u1 & a1 & u2 & a2 & H1 & H2 & _);
    [reflexivity | by left | reflexivity | reflexivity | reflexivity |].
  exists resp2. split; [exact H1 | exact H2].
Defined.

Lemma omap_total_length {A B} (f : A → option B) (l : list A) :
  (∀ x, is_Some (f x)) → List.length (omap f l) = List.length l.
Proof.
  intros Hf. induction l as [|x l IH]; [done |].
  destruct (Hf x) as [y Hy]. cbn. rewrite Hy. cbn. by rewrite IH.
Qed.

(** X8.  [list_conversations] leaves the store as it is and returns one
    summary for each stored conversation that passes the filter and nothing
    else: with no [user_email] every conversation, else those whose owner is
    that address.  Each summary counts the messages of its conversation.
    (The order of the result is not part of the statement.) *)
Theorem list_conversations_spec (user_email : option string)
    (conversations : Store) :
  ∃ l,
    list_conversations user_email conversations = (Return l, conversations) ∧
    (∀ sm, sm ∈ l ↔
       ∃ k c, conversations !! k = Some c ∧
              (∀ e, user_email = Some e → Conversation.user_email c = e) ∧
              sm = summary c) ∧
    (user_email = None → List.length l = size conversations).
Proof.
  eexists. split; [reflexivity |]. split.
  - intros sm. rewrite list_elem_of_omap. split.
    + intros ([k c] & Hin & Hf). apply elem_of_map_to_list in Hin. simpl in Hf.
      exists k, c. split; [done |].
      destruct user_email as [e|].
      * destruct (String.eqb_spec (Conversation.user_email c) e); [| done].
        injection Hf as <-. split; [| done]. by intros e' [= <-].
      * injection Hf as <-. split; [| done]. by intros e' [=].
    + intros (k & c & Hc & He & ->). exists (k, c).
      split; [by apply elem_of_map_to_list |]. simpl.
      destruct user_email as [e|]; [| done].
      rewrite (He e eq_refl). by rewrite String.eqb_refl.
  - intros ->. rewrite <- length_map_to_list. by apply omap_total_length.
Qed.

End Store_more.

(** ** [chat] among concurrent requests *)

Section Interleaved_facts.
Import App Interleaved.

Lemma unanswered_app (open : nat) (t1 t2 : list Message.t) :
  unanswered open (t1 ++ t2)%list
  = match unanswered open t1 with
    | Some n => unanswered n t2
    | None => None
    end.
Proof.
  revert open. induction t1 as [|m t1 IH]; intros open; simpl; [done |].
  destruct (String.eqb (Message.role m) "user"); [apply IH |].
  destruct (String.eqb (Message.role m) "assistant"); [| done].
  destruct open; [done | apply IH].
Qed.

Lemma unanswered_user (n : nat) (m : Message.t) :
  Message.role m = "user" → unanswered n [m] = Some (S n).
Proof. intros H. simpl. by rewrite H. Qed.

Lemma unanswered_assistant (n : nat) (m : Message.t) :
  Message.role m = "assistant" → unanswered (S n) [m] = Some n.
Proof. intros H. simpl. by rewrite H. Qed.

Lemma count_role_cons (r : string) (m : Message.t) (t : list Message.t) :
  count_role r (m :: t)
  = ((if String.eqb (Message.role m) r then 1 else 0) + count_role r t)%nat.
Proof.
  unfold count_role. simpl. by destruct (String.eqb (Message.role m) r).
Qed.

(** A transcript that [unanswered] reads to its end is one where the
    assistant is never ahead. *)
Lemma unanswered_never_ahead (open n : nat) (t : list Message.t) :
  unanswered open t = Some n →
  (∀ m, m ∈ t → Message.role m = "user" ∨ Message.role m = "assistant") ∧
  ∀ k, (count_role "assistant" (take k t)
        ≤ open + count_role "user" (take k t))%nat.
Proof.
  revert open. induction t as [|m t IH]; intros open; simpl.
  - intros _. split; [by intros m Hm%elem_of_nil |].
    intros k. rewrite take_nil. unfold count_role. simpl. lia.
  - destruct (String.eqb_spec (Message.role m) "user") as [Hu | Hu].
    + intros [Hr Hc]%IH. split.
      * intros m' [-> | Hm]%elem_of_cons; [by left | by apply Hr].
      * intros [|k]; [unfold count_role; simpl; lia |].
        simpl take. rewrite !count_role_cons, Hu. simpl.
        specialize (Hc k). lia.
    + destruct (String.eqb_spec (Message.role m) "assistant") as [Ha | Ha];
        [| done].
      destruct open as [|open]; [done |].
      intros [Hr Hc]%IH. split.
      * intros m' [-> | Hm]%elem_of_cons; [by right | by apply Hr].
      * intros [|k]; [unfold count_role; simpl; lia |].
        simpl take. rewrite !count_role_cons, Ha. simpl.
        specialize (Hc k). lia.
Qed.

Lemma waiting_app (a : nat) (l1 l2 : list suspended_chat) :
  waiting a (l1 ++ l2)%list = (waiting a l1 + waiting a l2)%nat.
Proof. unfold waiting. by rewrite List.filter_app, length_app. Qed.

Lemma waiting_cons (a : nat) (p : suspended_chat) (l : list suspended_chat) :
  waiting a (p :: l)
  = ((if Nat.eqb (conversation p) a then 1 else 0) + waiting a l)%nat.
Proof. unfold waiting. simpl. by destruct (Nat.eqb (conversation p) a). Qed.

Lemma waiting_none (a : nat) (l : list suspended_chat) :
  (∀ p, p ∈ l → conversation p ≠ a) → waiting a l = 0%nat.
Proof.
  induction l as [|p l IH]; intros H; [done |].
  rewrite waiting_cons, IH.
  - destruct (Nat.eqb_spec (conversation p) a) as [E | _]; [| done].
    exfalso. apply (H p); [left | done].
  - intros p' Hp'. apply H. by right.
Qed.

(** The suspended chats around the one resumed. *)
Lemma suspended_split (l : list suspended_chat) (i : nat) (p : suspended_chat) :
  l !! i = Some p →
  ∃ l1 l2, l = (l1 ++ p :: l2)%list ∧ delete i l = (l1 ++ l2)%list.
Proof.
  intros H. exists (take i l), (drop (S i) l). split.
  - by rewrite take_drop_middle.
  - apply delete_take_drop.
Qed.

Lemma state_ok_start : state_ok start.
Proof.
  split; [| split].
  - intros k a H. simpl in H. by rewrite lookup_empty in H.
  - intros p H%elem_of_nil. done.
  - intros a c H. done.
Qed.

(** The invariant is kept by the first half of a [chat]. *)
Lemma state_ok_chat_begin w message st :
  state_ok st → state_ok (chat_begin w message st).
Proof.
  intros (Hd & Hs & Hh). unfold chat_begin.
  set (um := new_Message _ _ _ _).
  destruct (existing_ref (conversations st) _) as [[cid a]|] eqn:Hx.
  - assert (conversations st !! cid = Some a) as Hcid.
    { unfold existing_ref in Hx.
      destruct (ChatMessage.conversation_id message) as [cid'|]; [| done].
      destruct (String.eqb cid' ""); [done |].
      destruct (conversations st !! cid') eqn:E; [| done]. by simplify_eq. }
    destruct (Hd _ _ Hcid) as (c0 & Hc0 & Hid0).
    set (f := λ c, Conversation.append um (Conversation.set_updated_at _ c)).
    assert (∀ a' c, heap st !! a' = Some c →
              ∃ c', alter f a (heap st) !! a' = Some c' ∧
                    Conversation.id c' = Conversation.id c) as Halter.
    { intros a' c Hc. destruct (decide (a' = a)) as [-> | Hne].
      - exists (f c). by rewrite list_lookup_alter_eq, Hc.
      - exists c. by rewrite list_lookup_alter_ne. }
    split; [| split]; simpl.
    + intros k a' Hk. destruct (Hd _ _ Hk) as (c & Hc & Hid).
      destruct (Halter _ _ Hc) as (c' & Hc' & Hid'). exists c'.
      split; [done | congruence].
    + intros p [Hp | ->%list_elem_of_singleton]%elem_of_app.
      * destruct (Hs _ Hp) as (c & Hc & Hid).
        destruct (Halter _ _ Hc) as (c' & Hc' & Hid'). exists c'.
        split; [done | congruence].
      * simpl. destruct (Halter _ _ Hc0) as (c' & Hc' & Hid'). exists c'.
        split; [done | congruence].
    + intros a' c' Hc'. rewrite waiting_app, waiting_cons. simpl.
      destruct (decide (a' = a)) as [-> | Hne].
      * rewrite list_lookup_alter_eq, Hc0 in Hc'. simplify_eq/=.
        destruct (Hh _ _ Hc0) as (Hu & n & Hn & Hw). split; [done |].
        exists (S n). rewrite unanswered_app, Hn.
        split; [by apply unanswered_user |].
        rewrite Nat.eqb_refl. unfold waiting at 2. simpl. lia.
      * rewrite list_lookup_alter_ne in Hc' by done.
        destruct (Hh _ _ Hc') as (Hu & n & Hn & Hw). split; [done |].
        exists n. split; [done |].
        destruct (Nat.eqb_spec a a'); [congruence |].
        unfold waiting at 2. simpl. lia.
  - set (c0 := Conversation.append um _).
    split; [| split]; simpl.
    + intros k a' Hk. destruct (decide (k = Uuid.str (conversation_uuid w)))
        as [-> | Hne].
      * rewrite lookup_insert_eq in Hk. simplify_eq.
        exists c0. by rewrite list_lookup_middle.
      * rewrite lookup_insert_ne in Hk by done.
        destruct (Hd _ _ Hk) as (c & Hc & Hid). exists c.
        split; [by apply lookup_app_l_Some | done].
    + intros p [Hp | ->%list_elem_of_singleton]%elem_of_app.
      * destruct (Hs _ Hp) as (c & Hc & Hid). exists c.
        split; [by apply lookup_app_l_Some | done].
      * simpl. exists c0. by rewrite list_lookup_middle.
    + intros a' c' Hc'. rewrite waiting_app, waiting_cons. simpl.
      apply lookup_app_Some in Hc' as [Hc' | [Hge Hc']].
      * destruct (Hh _ _ Hc') as (Hu & n & Hn & Hw). split; [done |].
        exists n. split; [done |].
        apply lookup_lt_Some in Hc'.
        destruct (Nat.eqb_spec (List.length (heap st)) a'); [lia |].
        unfold waiting at 2. simpl. lia.
      * apply list_lookup_singleton_Some in Hc' as [Ha' <-].
        assert (a' = List.length (heap st)) as -> by lia.
        split; [by eexists |].
        exists 1%nat. split; [done |].
        rewrite waiting_none, Nat.eqb_refl; [unfold waiting; simpl; lia |].
        intros p Hp E. destruct (Hs _ Hp) as (c & Hc & _).
        apply lookup_lt_Some in Hc. lia.
Qed.

(** It is kept by the second half. *)
Lemma state_ok_chat_resume i r st st' :
  state_ok st → chat_resume i st = Some (r, st') → state_ok st'.
Proof.
  intros (Hd & Hs & Hh). unfold chat_resume.
  destruct (suspended st !! i) as [p|] eqn:Hp; [| done].
  destruct (suspended_split _ _ _ Hp) as (l1 & l2 & Hl & ->).
  assert (∀ p', p' ∈ (l1 ++ l2)%list → p' ∈ suspended st) as Hsub.
  { rewrite Hl. intros p'. rewrite !elem_of_app, elem_of_cons. tauto. }
  assert (∀ a, waiting a (suspended st)
               = ((if Nat.eqb (conversation p) a then 1 else 0)
                  + waiting a (l1 ++ l2))%nat) as Hw.
  { intros a. rewrite Hl, !waiting_app, waiting_cons. lia. }
  assert (p ∈ suspended st) as Hin by (by eapply list_elem_of_lookup_2).
  destruct (Hs _ Hin) as (cp & Hcp & Hidp).
  assert (∀ am, Message.role am = "assistant" →
            state_ok (mkState
                        (alter (Conversation.append am) (conversation p)
                               (heap st))
                        (<[conversation_id p := conversation p]>
                           (conversations st))
                        (l1 ++ l2)%list)) as Hfiled.
  { intros am Ham.
    assert (∀ a' c, heap st !! a' = Some c →
              ∃ c', alter (Conversation.append am) (conversation p) (heap st)
                      !! a' = Some c' ∧
                    Conversation.id c' = Conversation.id c) as Halter.
    { intros a' c Hc. destruct (decide (a' = conversation p)) as [-> | Hne].
      - exists (Conversation.append am c). by rewrite list_lookup_alter_eq, Hc.
      - exists c. by rewrite list_lookup_alter_ne. }
    split; [| split]; simpl.
    - intros k a' Hk. destruct (decide (k = conversation_id p)) as [-> | Hne].
      + rewrite lookup_insert_eq in Hk. simplify_eq.
        destruct (Halter _ _ Hcp) as (c' & Hc' & Hid'). exists c'.
        split; [done | congruence].
      + rewrite lookup_insert_ne in Hk by done.
        destruct (Hd _ _ Hk) as (c & Hc & Hid).
        destruct (Halter _ _ Hc) as (c' & Hc' & Hid'). exists c'.
        split; [done | congruence].
    - intros p' Hp'%Hsub. destruct (Hs _ Hp') as (c & Hc & Hid).
      destruct (Halter _ _ Hc) as (c' & Hc' & Hid'). exists c'.
      split; [done | congruence].
    - intros a' c' Hc'. destruct (decide (a' = conversation p)) as [-> | Hne].
      + rewrite list_lookup_alter_eq, Hcp in Hc'. simplify_eq/=.
        destruct (Hh _ _ Hcp) as (Hu & n & Hn & Hle). split; [done |].
        rewrite Hw, Nat.eqb_refl in Hle.
        destruct n as [|n]; [lia |].
        exists n. rewrite unanswered_app, Hn.
        split; [by apply unanswered_assistant | lia].
      + rewrite list_lookup_alter_ne in Hc' by done.
        destruct (Hh _ _ Hc') as (Hu & n & Hn & Hle). split; [done |].
        exists n. split; [done |]. rewrite Hw in Hle. lia. }
  destruct (process_message _ _ _) as [[e | response e] | result];
    intros [= <- <-].
  - split; [| split]; simpl.
    + exact Hd.
    + intros p' Hp'%Hsub. by apply Hs.
    + intros a c Hc. destruct (Hh _ _ Hc) as (Hu & n & Hn & Hle).
      split; [done |]. exists n. split; [done |]. rewrite Hw in Hle. lia.
  - by apply Hfiled.
  - by apply Hfiled.
Qed.

Lemma state_ok_create uuid4 now1 now2 user_email st :
  state_ok st → state_ok (create_conversation uuid4 now1 now2 user_email st).
Proof.
  intros (Hd & Hs & Hh). unfold create_conversation.
  split; [| split]; simpl.
  - intros k a' Hk. destruct (decide (k = Uuid.str uuid4)) as [-> | Hne].
    + rewrite lookup_insert_eq in Hk. simplify_eq.
      eexists. by rewrite list_lookup_middle.
    + rewrite lookup_insert_ne in Hk by done.
      destruct (Hd _ _ Hk) as (c & Hc & Hid). exists c.
      split; [by apply lookup_app_l_Some | done].
  - intros p Hp. destruct (Hs _ Hp) as (c & Hc & Hid). exists c.
    split; [by apply lookup_app_l_Some | done].
  - intros a' c' Hc'.
    apply lookup_app_Some in Hc' as [Hc' | [Hge Hc']].
    + by apply Hh.
    + apply list_lookup_singleton_Some in Hc' as [Ha' <-].
      split; [by eexists |].
      exists 0%nat. split; [done |].
      rewrite waiting_none; [done |].
      intros p Hp E. destruct (Hs _ Hp) as (c & Hc & _).
      apply lookup_lt_Some in Hc. lia.
Qed.

Lemma state_ok_delete conversation_id st :
  state_ok st → state_ok (delete_conversation conversation_id st).
Proof.
  intros (Hd & Hs & Hh). split; [| split]; simpl; [| done | done].
  intros k a [_ Hk]%lookup_delete_Some. by apply Hd.
Qed.

Lemma reachable_state_ok st : reachable st → state_ok st.
Proof.
  induction 1 as [|st st' _ IH Hstep]; [apply state_ok_start |].
  destruct Hstep.
  - by apply state_ok_chat_begin.
  - by eapply state_ok_chat_resume.
  - by apply state_ok_create.
  - by apply state_ok_delete.
Qed.

Lemma view_lookup st k :
  view st !! k = conversations st !! k ≫= λ a, heap st !! a.
Proof. apply lookup_omap. Qed.

(** A new object filed under [k]. *)
Lemma view_alloc st k c s' :
  state_ok st →
  view (mkState (heap st ++ [c])%list
          (<[k := List.length (heap st)]> (conversations st)) s')
  = <[k := c]> (view st).
Proof.
  intros (Hd & _ & _). apply map_eq. intros k'. rewrite !view_lookup. simpl.
  destruct (decide (k' = k)) as [-> | Hne].
  - rewrite !lookup_insert_eq. simpl. by rewrite list_lookup_middle.
  - rewrite !lookup_insert_ne by done. rewrite view_lookup.
    destruct (conversations st !! k') as [a|] eqn:Hk; [| done]. simpl.
    destruct (Hd _ _ Hk) as (c' & Hc' & _).
    by rewrite Hc', (lookup_app_l_Some _ _ _ _ Hc').
Qed.

(** A change to the object filed under [k] shows under [k] only. *)
Lemma view_alter st k a c f s' :
  state_ok st → conversations st !! k = Some a → heap st !! a = Some c →
  view (mkState (alter f a (heap st)) (conversations st) s')
  = <[k := f c]> (view st).
Proof.
  intros (Hd & _ & _) Hk Hc. apply map_eq. intros k'.
  rewrite !view_lookup. simpl.
  destruct (decide (k' = k)) as [-> | Hne].
  - rewrite lookup_insert_eq, Hk. simpl. by rewrite list_lookup_alter_eq, Hc.
  - rewrite lookup_insert_ne by done. rewrite view_lookup.
    destruct (conversations st !! k') as [a'|] eqn:Hk'; [| done]. simpl.
    apply list_lookup_alter_ne. intros <-.
    destruct (Hd _ _ Hk) as (c1 & Hc1 & Hid1).
    destruct (Hd _ _ Hk') as (c2 & Hc2 & Hid2). congruence.
Qed.

Lemma existing_view st conversation_id :
  state_ok st →
  existing (view st) conversation_id
  = match existing_ref (conversations st) conversation_id with
    | Some (cid, a) => (λ c, (cid, c)) <$> heap st !! a
    | None => None
    end.
Proof.
  intros (Hd & _ & _). unfold existing, existing_ref.
  destruct conversation_id as [cid|]; [| done].
  destruct (String.eqb cid ""); [done |].
  rewrite view_lookup.
  destruct (conversations st !! cid) as [a|] eqn:Hk; [| done]. simpl.
  destruct (Hd _ _ Hk) as (c & Hc & _). by rewrite Hc.
Qed.

Lemma delete_last (l : list suspended_chat) (p : suspended_chat) :
  delete (List.length l) (l ++ [p])%list = l.
Proof.
  rewrite delete_take_drop, take_app_length.
  rewrite drop_ge; [apply app_nil_r |]. rewrite length_app. simpl. lia.
Qed.

(** What the first half of a [chat] leaves: the object [cb] at [a], filed
    under [k], holds the user's message; [k] and [cb] are those of the
    uninterrupted run. *)
Lemma chat_begin_spec w message st :
  state_ok st →
  let target :=
    match existing (view st) (ChatMessage.conversation_id message) with
    | None =>
        (Uuid.str (conversation_uuid w),
         new_Conversation (conversation_uuid w) (conversation_created w)
           (conversation_updated w) (ChatMessage.user_email message))
    | Some (cid, c) => (cid, Conversation.set_updated_at (existing_updated w) c)
    end in
  let um := new_Message (user_message_uuid w) (user_message_now w)
              (ChatMessage.message message) "user" in
  let stb := chat_begin w message st in
  ∃ a,
    suspended stb = (suspended st ++ [mkSuspended w message target.1 a])%list ∧
    conversations stb !! target.1 = Some a ∧
    heap stb !! a = Some (Conversation.append um target.2) ∧
    view stb = <[target.1 := Conversation.append um target.2]> (view st).
Proof.
  intros Hok. cbv zeta. rewrite (existing_view _ _ Hok). unfold chat_begin.
  destruct (existing_ref (conversations st) _) as [[cid a]|] eqn:Hx.
  - assert (conversations st !! cid = Some a) as Hcid.
    { unfold existing_ref in Hx.
      destruct (ChatMessage.conversation_id message) as [cid'|]; [| done].
      destruct (String.eqb cid' ""); [done |].
      destruct (conversations st !! cid') eqn:E; [| done]. by simplify_eq. }
    destruct Hok as (Hd & Hs & Hh).
    destruct (Hd _ _ Hcid) as (c & Hc & Hid). rewrite Hc. simpl.
    exists a. split; [done |]. split; [done |].
    split; [by rewrite list_lookup_alter_eq, Hc |].
    by apply (view_alter st cid a c).
  - simpl. exists (List.length (heap st)). split; [done |].
    split; [apply lookup_insert_eq |].
    split; [by apply list_lookup_middle |].
    by apply view_alloc.
Qed.

End Interleaved_facts.

Section Interleaved_claims.
Import App Interleaved.

Lemma both_answered_reachable : reachable Samples.both_answered.
Proof.
  apply (Reach_step Samples.first_answered).
  - apply (Reach_step Samples.both_suspended).
    + apply (Reach_step (chat_begin (Samples.env Samples.agent_ok)
                           Samples.first_message start)).
      * apply (Reach_step start); [apply Reach_start | apply Step_begin].
      * apply Step_begin.
    + by apply (Step_resume 0 (Return Samples.first_response)).
  - by apply (Step_resume 0
                (Return (ChatResponse.mk "Hello! How can I help?"
                           "550e8400-e29b-41d4-a716-446655440000" None None))).
Qed.

(** X20.  Whatever the order in which the event loop runs the two halves of
    the chats and the other requests, each key of [conversations] is the
    text of a uuid and refers to a conversation with that id, every message
    of its transcript has role "user" or "assistant", and at no point of the
    transcript has the assistant said more than the user; in particular no
    transcript begins with the assistant. *)
Theorem interleaved_transcripts st k a :
  reachable st → conversations st !! k = Some a →
  ∃ c, heap st !! a = Some c ∧ view st !! k = Some c ∧
       Conversation.id c = k ∧ (∃ u, k = Uuid.str u) ∧
       never_ahead (Conversation.messages c) ∧
       ∀ m, head (Conversation.messages c) = Some m → Message.role m = "user".
Proof.
  intros (Hd & Hs & Hh)%reachable_state_ok Hk.
  destruct (Hd _ _ Hk) as (c & Hc & Hid).
  destruct (Hh _ _ Hc) as ([u Hu] & n & Hn & _).
  exists c. split; [done |].
  split; [by rewrite view_lookup, Hk |].
  split; [done |]. split; [exists u; congruence |].
  pose proof (unanswered_never_ahead _ _ _ Hn) as [Hr Hc'].
  split; [split; [done | intros j; specialize (Hc' j); lia] |].
  intros m Hm. destruct (Conversation.messages c) as [|m' t]; [done |].
  simpl in Hm, Hn. injection Hm as ->.
  destruct (String.eqb_spec (Message.role m) "user"); [done |].
  by destruct (String.eqb (Message.role m) "assistant").
Qed.

Lemma interleaved_transcripts_witness :
  ∃ c, view Samples.both_answered !! "550e8400-e29b-41d4-a716-446655440000"
         = Some c ∧
       never_ahead (Conversation.messages c).
Proof.
  destruct (interleaved_transcripts Samples.both_answered
              "550e8400-e29b-41d4-a716-446655440000" 0
              both_answered_reachable)
    as (c & _ & Hv & _ & _ & Hn & _); [by vm_compute |].
  exists c. split; [exact Hv | exact Hn].
Defined.

(** Two chats on one conversation, the second begun while the first awaits
    the agent, leave the transcript user, user, assistant, assistant: a
    message of the assistant that follows another one of the assistant. *)
Example interleaved_replies :
  ∃ c, view Samples.both_answered !! "550e8400-e29b-41d4-a716-446655440000"
         = Some c ∧
       Message.role <$> Conversation.messages c
         = ["user"; "user"; "assistant"; "assistant"] ∧
       Message.content <$> Conversation.messages c
         = ["Book a meeting for tomorrow at 3pm"; "And the day after?";
            "Hello! How can I help?"; "Hello! How can I help?"] ∧
       ¬ replies_follow_user (Conversation.messages c).
Proof.
  eexists. split; [by vm_compute |]. split; [done |]. split; [done |].
  intros [_ H].
  destruct (H 3%nat _ eq_refl eq_refl) as (j & m' & [= <-] & Hm' & Hr).
  injection Hm' as <-. discriminate Hr.
Qed.

(** X21.  A [chat] whose two halves run with no other request in between is
    the [chat] of the sequential reading: from any state the application can
    be in, the reply is the same and the store the handlers see afterwards
    is the same, whatever chats are suspended meanwhile; these stay
    suspended. *)
Theorem chat_uninterrupted w message st :
  reachable st →
  ∃ st',
    chat_resume (List.length (suspended st)) (chat_begin w message st)
      = Some ((chat w message (view st)).1, st') ∧
    view st' = (chat w message (view st)).2 ∧
    suspended st' = suspended st.
Proof.
  intros Hok%reachable_state_ok.
  pose proof (state_ok_chat_begin w message st Hok) as Hokb.
  destruct (chat_begin_spec w message st Hok) as (a & Hsusp & Hk & Hc & Hv).
  rewrite chat_run. cbv zeta.
  set (target := match existing (view st) _ with
                 | Some (cid, c) => _ | None => _ end) in *.
  set (um := new_Message (user_message_uuid w) _ _ _) in *.
  set (stb := chat_begin w message st) in *.
  unfold chat_resume. rewrite Hsusp, list_lookup_middle by done.
  rewrite delete_last. simpl.
  destruct (process_message w _ _) as [[e | response e] | result];
    eexists; (split; [reflexivity |]); (split; [| done]).
  - exact Hv.
  - rewrite (insert_id _ _ _ Hk).
    rewrite (view_alter stb target.1 a _ _ _ Hokb Hk Hc), Hv.
    apply insert_insert_eq.
  - rewrite (insert_id _ _ _ Hk).
    rewrite (view_alter stb target.1 a _ _ _ Hokb Hk Hc), Hv.
    apply insert_insert_eq.
Qed.

Lemma chat_uninterrupted_witness :
  ∃ st',
    chat_resume 0 (chat_begin (Samples.env Samples.agent_ok)
                     Samples.first_message start)
      = Some (Return Samples.first_response, st') ∧
    view st' = Samples.store1.
Proof.
  destruct (chat_uninterrupted (Samples.env Samples.agent_ok)
              Samples.first_message start Reach_start)
    as (st' & H1 & H2 & _).
  exists st'. split; [exact H1 | exact H2].
Defined.

End Interleaved_claims.

(** ** [extract_iso_datetime] *)

Section IsoExtract_more.
Import IsoExtract.

(** X10.  [extract_iso_datetime] reports the first occurrence: for a message
    that holds a well-formed [D ++ "T" ++ T ++ ":00.000Z"] after a prefix
    [pre], the result is the pair of an occurrence that starts no later than
    [pre] ends, and it is [{date: D, time: T}] itself when [pre] is empty,
    whatever text follows. *)
Theorem extract_iso_datetime_first_occurrence (pre D T post : string) :
  fullmatch date_atoms D = true → fullmatch time_atoms T = true →
  (∃ d t pre' post',
     extract_iso_datetime (pre +:+ render D T +:+ post)
       = <["time" := t]> (<["date" := d]> ∅) ∧
     pre +:+ render D T +:+ post = pre' +:+ render d t +:+ post' ∧
     (String.length pre' ≤ String.length pre)%nat) ∧
  extract_iso_datetime (render D T +:+ post)
    = <["time" := T]> (<["date" := D]> ∅).
Proof.
  intros FD FT.
  assert (re_search (render D T +:+ post) = Some (D, T)) as H0.
  { apply re_search_here, match_here_spec. eauto. }
  split; [| unfold extract_iso_datetime; by rewrite H0].
  unfold extract_iso_datetime.
  induction pre as [|c pre IH].
  - exists D, T, "", post. simpl. by rewrite H0.
  - simpl append. simpl re_search.
    destruct (match_here _) as [[d t]|] eqn:Hm.
    + apply match_here_spec in Hm as ([post' Hm] & _).
      exists d, t, "", post'. split; [done |]. split; [exact Hm | simpl; lia].
    + destruct IH as (d & t & pre' & post' & E & Hsplit & Hlen).
      destruct (re_search (pre +:+ render D T +:+ post)) as [[d' t']|];
        [| symmetry in E; by apply insert_non_empty in E].
      exists d, t, (String c pre'), post'. split; [exact E |].
      split; [simpl; by rewrite Hsplit | simpl; lia].
Qed.

Lemma extract_iso_datetime_first_occurrence_witness :
  extract_iso_datetime
    ("2025-05-14T20:30:00.000Z" +:+ " or 2023-12-25T14:15:00.000Z")
    = <["time" := "20:30"]> (<["date" := "2025-05-14"]> ∅).
Proof.
  exact (proj2 (extract_iso_datetime_first_occurrence "" "2025-05-14" "20:30"
                  " or 2023-12-25T14:15:00.000Z" eq_refl eq_refl)).
Defined.

End IsoExtract_more.

Section IsoUnicode_more.
Import IsoUnicode.

(** X9.  Whatever the message, [extract_iso_datetime] returns either the
    empty dict or a dict with exactly the two keys "date" and "time"; in the
    second case the date has 10 characters of the form dddd-dd-dd and the
    time 5 characters of the form dd:dd, each d a decimal digit in the sense
    of [\d], and the two are the groups of an occurrence of the pattern in
    the message. *)
Theorem extract_iso_datetime_sound (u : Unicode.tables) (message : list N) :
  extract_iso_datetime u message = ∅ ∨
  ∃ d t,
    extract_iso_datetime u message = <["time" := t]> (<["date" := d]> ∅) ∧
    dom (extract_iso_datetime u message) = ({["date"; "time"]} : gset string) ∧
    extract_iso_datetime u message !! "date" = Some d ∧
    extract_iso_datetime u message !! "time" = Some t ∧
    fullmatch (Unicode.decimal u) date_atoms d = true ∧
    List.length d = 10%nat ∧
    fullmatch (Unicode.decimal u) time_atoms t = true ∧
    List.length t = 5%nat ∧
    ∃ pre post, message = (pre ++ render d t ++ post)%list.
Proof.
  unfold extract_iso_datetime, extract_with.
  destruct (re_search (Unicode.decimal u) message) as [[d t]|] eqn:Hs;
    [right | by left].
  apply re_search_sound_cp in Hs as (Hocc & Fd & Ft).
  exists d, t. split; [done |].
  split; [rewrite !dom_insert_L, dom_empty_L; set_solver |].
  split; [by rewrite lookup_insert_ne, lookup_insert_eq |].
  split; [by rewrite lookup_insert_eq |].
  split; [done |].
  split; [by rewrite (fullmatch_length_cp _ _ _ Fd) |].
  split; [done |].
  split; [by rewrite (fullmatch_length_cp _ _ _ Ft) | done].
Qed.

Example extract_iso_datetime_sound_main :
  extract_iso_datetime Samples.tables
    (of_string "book a 30 min meeting for 2025-05-14T20:30:00.000Z")
    !! "date" = Some (of_string "2025-05-14").
Proof.
  unfold extract_iso_datetime, extract_with. by vm_compute re_search.
Qed.

End IsoUnicode_more.

(** ** The calendar endpoints *)

Section Calendar_more.
Import Calendar.

Lemma cancel_event_run cal_api event_id (issued : list call) :
  cancel_event cal_api event_id issued =
  (match cal_api (List.length issued) (Cancel_booking event_id) with
   | inl e => reraise e
   | inr result =>
       if decide (result !! "status" = Some "error")
       then Raise (mkHTTPException 400
                     (default "Failed to cancel event" (result !! "message")))
       else Return result
   end,
   (issued ++ [Cancel_booking event_id])%list).
Proof.
  unfold cancel_event, invoke, mbind, ST_bind, mret, ST_ret.
  destruct (cal_api _ _) as [e|result]; [done |]. by case_decide.
Qed.

Lemma reschedule_event_run cal_api event_id reschedule_data (issued : list call) :
  reschedule_event cal_api event_id reschedule_data issued =
  (match cal_api (List.length issued)
           (Reschedule_booking event_id
              (IsoExtract.render
                 (RescheduleEventRequest.new_date reschedule_data)
                 (RescheduleEventRequest.new_time reschedule_data))) with
   | inl e => reraise e
   | inr result =>
       if decide (result !! "status" = Some "error")
       then Raise (mkHTTPException 400
                     (default "Failed to reschedule event" (result !! "message")))
       else Return result
   end,
   (issued ++ [Reschedule_booking event_id
                 (IsoExtract.render
                    (RescheduleEventRequest.new_date reschedule_data)
                    (RescheduleEventRequest.new_time reschedule_data))])%list).
Proof.
  unfold reschedule_event, invoke, mbind, ST_bind, mret, ST_ret, IsoExtract.render.
  destruct (cal_api _ _) as [e|result]; [done |]. by case_decide.
Qed.

(** X11.  [book_event], [reschedule_event] and [cancel_event] each hand the
    remote result back unchanged exactly when the client answers a result
    whose [status] is not "error".  [cancel_event] issues the one call
    [cancel_booking(event_id)]; an error result gives HTTP 400 with its
    [message], or "Failed to cancel event" when it has none; an
    [HTTPException] raised by the client is passed on as it is, status and
    detail unchanged, and any other exception of the client gives HTTP 500
    with its text. *)
Theorem write_handlers_pass_through cal_api event event_id reschedule_data
    (issued : list call) :
  let new_start_time :=
    IsoExtract.render (RescheduleEventRequest.new_date reschedule_data)
      (RescheduleEventRequest.new_time reschedule_data) in
  let answer := cal_api (List.length issued) in
  (∀ result,
     (book_event cal_api event issued).1 = Return result ↔
     answer (book_event_call event) = inr result ∧
     result !! "status" ≠ Some "error") ∧
  (∀ result,
     (reschedule_event cal_api event_id reschedule_data issued).1
       = Return result ↔
     answer (Reschedule_booking event_id new_start_time) = inr result ∧
     result !! "status" ≠ Some "error") ∧
  (∀ result,
     (cancel_event cal_api event_id issued).1 = Return result ↔
     answer (Cancel_booking event_id) = inr result ∧
     result !! "status" ≠ Some "error") ∧
  (cancel_event cal_api event_id issued).2
    = (issued ++ [Cancel_booking event_id])%list ∧
  (∀ result,
     answer (Cancel_booking event_id) = inr result →
     result !! "status" = Some "error" →
     (cancel_event cal_api event_id issued).1
       = Raise (mkHTTPException 400
                  (default "Failed to cancel event" (result !! "message")))) ∧
  (∀ e, answer (Cancel_booking event_id) = inl (Http_exception e) →
        (cancel_event cal_api event_id issued).1 = Raise e) ∧
  (∀ text, answer (Cancel_booking event_id) = inl (Other_exception text) →
           (cancel_event cal_api event_id issued).1
             = Raise (mkHTTPException 500 text)).
Proof.
  intros new_start_time answer. subst new_start_time answer.
  rewrite book_event_run, reschedule_event_run, cancel_event_run. simpl.
  assert (∀ (a : client_exn + gmap string string)
            (f : gmap string string → HTTPException) result,
            match a with
            | inl e => reraise e
            | inr r => if decide (r !! "status" = Some "error")
                       then Raise (f r) else Return r
            end = Return result ↔
            a = inr result ∧ result !! "status" ≠ Some "error") as Hpass.
  { intros [[e|e]|r] f result; [by split; [| intros []].. |].
    case_decide as Hs; split.
    - done.
    - intros [[= ->] Hne]. done.
    - intros [= ->]. done.
    - intros [[= ->] _]. done. }
  split; [intros result; apply (Hpass _ (λ r, booking_error _)) |].
  split; [intros result; apply (Hpass _ (λ r, mkHTTPException 400 _)) |].
  split; [intros result; apply (Hpass _ (λ r, mkHTTPException 400 _)) |].
  split; [done |]. split; [| split].
  - intros result -> Hs. by rewrite decide_True.
  - by intros e ->.
  - by intros text ->.
Qed.

(** X12.  The status codes of the three handlers that write to the
    calendar.  Unless the exception raised is an [HTTPException] of the
    client itself, which is passed on with whatever status it has,
    [book_event] raises only 400, 401, 404, 500 or 503 and
    [reschedule_event] and [cancel_event] raise only 400 or 500.  So a 409
    can only come from the client, and then it does get through. *)
Theorem write_handlers_status_codes cal_api event event_id reschedule_data
    (issued : list call) :
  let answer := cal_api (List.length issued) in
  (∀ e, (book_event cal_api event issued).1 = Raise e →
        answer (book_event_call event) = inl (Http_exception e) ∨
        status_code e ∈ [400; 401; 404; 500; 503]%Z) ∧
  (∀ e, (reschedule_event cal_api event_id reschedule_data issued).1 = Raise e →
        answer (Reschedule_booking event_id
                  (IsoExtract.render
                     (RescheduleEventRequest.new_date reschedule_data)
                     (RescheduleEventRequest.new_time reschedule_data)))
          = inl (Http_exception e) ∨
        status_code e ∈ [400; 500]%Z) ∧
  (∀ e, (cancel_event cal_api event_id issued).1 = Raise e →
        answer (Cancel_booking event_id) = inl (Http_exception e) ∨
        status_code e ∈ [400; 500]%Z) ∧
  ∀ e, answer (book_event_call event) = inl (Http_exception e) →
       answer (Cancel_booking event_id) = inl (Http_exception e) →
       (book_event cal_api event issued).1 = Raise e ∧
       (cancel_event cal_api event_id issued).1 = Raise e.
Proof.
  intros answer. subst answer.
  rewrite book_event_run, reschedule_event_run, cancel_event_run. simpl.
  split; [| split; [| split]].
  - intros e. destruct (cal_api _ _) as [[x|x]|r].
    + intros [= <-]. by left.
    + intros [= <-]. right. simpl. set_solver.
    + case_decide; [| done]. intros [= <-]. right. unfold booking_error.
      repeat match goal with
             | |- context [if ?b then _ else _] => destruct b
             end; simpl; set_solver.
  - intros e. destruct (cal_api _ _) as [[x|x]|r].
    + intros [= <-]. by left.
    + intros [= <-]. right. simpl. set_solver.
    + case_decide; [| done]. intros [= <-]. right. simpl. set_solver.
  - intros e. destruct (cal_api _ _) as [[x|x]|r].
    + intros [= <-]. by left.
    + intros [= <-]. right. simpl. set_solver.
    + case_decide; [| done]. intros [= <-]. right. simpl. set_solver.
  - intros e -> ->. done.
Qed.

(** A client that raises [HTTPException(409)] is heard with 409. *)
Example client_conflict_passes :
  (book_event Samples.conflicting_calendar Samples.booking []).1
    = Raise (mkHTTPException 409 "Slot already taken") ∧
  (cancel_event Samples.conflicting_calendar "42" []).1
    = Raise (mkHTTPException 409 "Slot already taken").
Proof. by vm_compute. Qed.

End Calendar_more.

(** ** The client service layer *)

Section ApiService_more.
Import ApiService.

(** X13.  The request [send_message] issues is a POST to
    [API_BASE_URL + "/chat"] with the header [X-API-Key] and a JSON payload
    that holds [message] and [user_email] and holds [conversation_id]
    exactly when one was given and is not empty.  Before the request the
    URL, the headers (the API key among them) and the payload are written to
    the debug log. *)
Theorem send_message_request cfg http message user_email conversation_id w :
  ∃ r p rest,
    sent (send_message cfg http message user_email conversation_id w).2
      = (sent w ++ [r])%list ∧
    meth r = POST ∧ url r = API_BASE_URL cfg +:+ "/chat" ∧
    headers r !! "X-API-Key" = Some (API_KEY cfg) ∧
    payload r = Some p ∧
    p !! "message" = Some message ∧ p !! "user_email" = Some user_email ∧
    (∀ c, p !! "conversation_id" = Some c ↔
          conversation_id = Some c ∧ c ≠ "") ∧
    debug_log (send_message cfg http message user_email conversation_id w).2
      = (debug_log w ++ Sending (url r) (headers r) p :: rest)%list.
Proof.
  unfold send_message, mbind, ST_bind, mret, ST_ret, write_log, perform. simpl.
  set (p := match conversation_id with Some c => _ | None => _ end).
  assert (p !! "message" = Some message ∧ p !! "user_email" = Some user_email ∧
          ∀ c, p !! "conversation_id" = Some c ↔
               conversation_id = Some c ∧ c ≠ "") as (Hm & Hu & Hc).
  { subst p. destruct conversation_id as [c0|].
    - destruct (String.eqb_spec c0 "") as [-> | Hne].
      + split; [done |]. split; [done |]. intros c. split; [done |].
        by intros [[= <-] ?].
      + split; [done |]. split; [done |]. intros c.
        rewrite lookup_insert_eq. split.
        * by intros [= <-].
        * by intros [[= <-] _].
    - split; [done |]. split; [done |]. intros c. split; [done | by intros []]. }
  exists (mkRequest POST (API_BASE_URL cfg +:+ "/chat") (Some p) (HEADERS cfg)
            (Some 30%Z)), p.
  assert (HEADERS cfg !! "X-API-Key" = Some (API_KEY cfg)) as Hk
    by apply lookup_insert_eq.
  destruct (http _ _) as [e|resp]; simpl.
  - destruct (cls e); simpl; eexists; split_and!; try done;
      by rewrite <- app_assoc.
  - destruct (raise_for_status resp) as [e|]; simpl.
    + destruct (cls e); simpl; eexists; split_and!; try done;
        by rewrite <- ?app_assoc.
    + destruct (body resp) as [e|v]; [destruct (cls e) |]; simpl;
        eexists; split_and!; try done; by rewrite <- ?app_assoc.
Qed.


Example client_success_example :
  (get_conversation_messages Samples.config (Samples.answering (JList [])) "c1"
     Samples.world0).1 = inr (JList []).
Proof. by vm_compute. Qed.

(** X15.  The key the client sends is the [CHATBOT_API_KEY] of its [.env]
    file and the key the server expects is its [API_KEY], both with the
    default "test-api-key": [verify_api_key] accepts the client's header if
    and only if these two values agree.  So it is accepted when neither
    variable is set, and rejected with HTTP 401 when the server sets
    [API_KEY] to another value and the client's file has no
    [CHATBOT_API_KEY], whatever else that file sets. *)
Theorem client_key_accepted_iff (dotenv environ : gmap string string) :
  let sent_key := HEADERS (load_config dotenv) !! "X-API-Key" in
  (verify_api_key environ sent_key = Return sent_key ↔
   getenv dotenv "CHATBOT_API_KEY" "test-api-key"
     = getenv environ "API_KEY" "test-api-key") ∧
  (dotenv !! "CHATBOT_API_KEY" = None → environ !! "API_KEY" = None →
   verify_api_key environ sent_key = Return sent_key) ∧
  (∀ k, dotenv !! "CHATBOT_API_KEY" = None → environ !! "API_KEY" = Some k →
        k ≠ "test-api-key" →
        verify_api_key environ sent_key
          = Raise (mkHTTPException 401 "Invalid API key")).
Proof.
  intros sent_key.
  assert (sent_key = Some (getenv dotenv "CHATBOT_API_KEY" "test-api-key")) as ->
    by apply lookup_insert_eq.
  unfold verify_api_key. split; [| split].
  - case_decide as H; split; try done.
    + intros E. exfalso. apply H. by rewrite E.
    + intros _. by injection H.
  - intros Hd He. unfold getenv. rewrite Hd, He. unfold default.
    case_decide as H; [exfalso; by apply H | done].
  - intros k Hd He Hk. unfold getenv. rewrite Hd, He. unfold default.
    case_decide as H; [done |]. exfalso. apply Hk. by injection H.
Qed.

End ApiService_more.

(** ** The chat page *)

Section Frontend_more.
Import ApiService Frontend.

Lemma has_text_false (s : string) :
  has_text s = false ↔ Forall (λ c, isspace c = true) (list_ascii_of_string s).
Proof.
  induction s as [|c s IH]; simpl.
  - split; [constructor | done].
  - rewrite orb_false_iff, negb_false_iff, IH, Forall_cons. done.
Qed.


(** X16.  [submit] does nothing unless the form was submitted with an input
    that has a character other than white space: otherwise no request is
    sent, nothing is logged and the session state stays as it is. *)
Theorem submit_blank cfg http submitted user_input st w :
  submitted = false ∨
  Forall (λ c, isspace c = true) (list_ascii_of_string user_input) →
  submit cfg http submitted user_input st w = ((None, st), w).
Proof.
  intros [-> | H%has_text_false]; unfold submit; [done |].
  by rewrite H, andb_false_r.
Qed.

Lemma submit_blank_witness :
  submit Samples.config Samples.timing_out true "   " Samples.session0
    Samples.world0 = ((None, Samples.session0), Samples.world0).
Proof.
  apply submit_blank. right. repeat constructor.
Defined.







Example load_history_example :
  (load_history Samples.config
     (Samples.answering (JList [entry "user" "hi"]))
     (mkSession "user@example.com" (Some "c1") [] (Some "old error"))
     Samples.world0).1
    = (None, mkSession "user@example.com" (Some "c1") [entry "user" "hi"] None) ∧
  (load_history Samples.config Samples.timing_out
     (mkSession "user@example.com" (Some "c1") [entry "user" "hi"] None)
     Samples.world0).1
    = (None, mkSession "user@example.com" (Some "c1") [entry "user" "hi"]
               (Some "Read timed out.")).
Proof. split; by vm_compute. Qed.

End Frontend_more.
